(** * FilterX function-call argument binding and name resolution

    A shallow embedding of the FilterX function-call code found in
    [lib/ack-tracker/batched_ack_tracker.h] after its header part (argument
    container, literal extraction, simple-function wrapper and function
    lookup), with proofs of its documented behaviour. *)

From Stdlib Require Import String Ascii ZArith QArith List Permutation Lia Bool.
Import ListNotations.
Open Scope string_scope.
Open Scope nat_scope.
Open Scope list_scope.

(** ** Runtime values and expressions of the evaluation engine *)

(** Modelled from the spec: the runtime value types of the expression
    engine (filterx/object-*.c is not part of this core).  Strings, null,
    and the primitive scalars (integer, double, boolean); [OOther] stands
    for every other value type (dicts, lists, message values...). *)
Inductive FilterXObject :=
| OString (s : string)
| OInteger (z : Z)
| ODouble (q : Q)
| OBoolean (b : bool)
| ONull
| OOther (tag : nat).

(** Modelled from the spec: argument expressions.  A literal is a
    compile-time constant holding its value; a non-literal expression depends
    on the message being processed, and is evaluated through an environment
    that may fail. *)
Inductive FilterXExpr :=
| ELiteral (o : FilterXObject)
| ENonLiteral (id : nat).

(** Modelled from the spec: [filterx_expr_is_literal]. *)
Definition filterx_expr_is_literal (e : FilterXExpr) : bool :=
  match e with ELiteral _ => true | ENonLiteral _ => false end.

(** The per-message evaluation environment of non-literal expressions. *)
Definition Env := nat -> option FilterXObject.

(** Modelled from the spec: the value [filterx_expr_eval] produces. *)
Definition expr_value (env : Env) (e : FilterXExpr) : option FilterXObject :=
  match e with
  | ELiteral o => Some o
  | ENonLiteral i => env i
  end.

(** Generic numbers: the tagged scalar of typed literal extraction. *)
Inductive GenericNumber :=
| GN_INT64 (z : Z)
| GN_DOUBLE (q : Q)
| GN_NAN.

Inductive GenericNumberType := GNT_INT64 | GNT_DOUBLE | GNT_NAN.

Definition gn_type (gn : GenericNumber) : GenericNumberType :=
  match gn with
  | GN_INT64 _ => GNT_INT64
  | GN_DOUBLE _ => GNT_DOUBLE
  | GN_NAN => GNT_NAN
  end.

Definition gn_as_int64 (gn : GenericNumber) : Z :=
  match gn with GN_INT64 z => z | _ => 0%Z end.

Definition gn_as_double (gn : GenericNumber) : Q :=
  match gn with GN_DOUBLE q => q | GN_INT64 z => inject_Z z | GN_NAN => 0%Q end.

(** Modelled from the spec: [filterx_object_is_type(obj, primitive)]. *)
Definition is_primitive (o : FilterXObject) : bool :=
  match o with OInteger _ | ODouble _ | OBoolean _ => true | _ => false end.

(** Modelled from the spec: [filterx_primitive_get_value]; booleans are
    stored as integers. *)
Definition filterx_primitive_get_value (o : FilterXObject) : GenericNumber :=
  match o with
  | OInteger z => GN_INT64 z
  | ODouble q => GN_DOUBLE q
  | OBoolean b => GN_INT64 (if b then 1 else 0)%Z
  | _ => GN_NAN
  end.

(** Modelled from the spec: [filterx_object_is_type(obj, null)]. *)
Definition is_null (o : FilterXObject) : bool :=
  match o with ONull => true | _ => false end.

(** Modelled from the spec: [filterx_string_get_value]: the string and its
    length, or NULL for a non-string value. *)
Definition filterx_string_get_value (o : FilterXObject) : option (string * nat) :=
  match o with OString s => Some (s, String.length s) | _ => None end.

(** ** Errors (GError) *)

Inductive FilterXFunctionError :=
| FILTERX_FUNCTION_ERROR_CTOR_FAIL
| FILTERX_FUNCTION_ERROR_UNEXPECTED_ARGS
| FILTERX_FUNCTION_ERROR_FUNCTION_NOT_FOUND.

Record GError := mkGError { err_code : FilterXFunctionError; err_message : string }.

(** The double quote character. *)
Definition dq : string := String (ascii_of_nat 34) EmptyString.

Definition ctor_fail_error : GError :=
  mkGError FILTERX_FUNCTION_ERROR_CTOR_FAIL
           "cannot set positional argument after a named argument".

Definition unexpected_argument_error (name : string) : GError :=
  mkGError FILTERX_FUNCTION_ERROR_UNEXPECTED_ARGS
           ("unexpected argument " ++ dq ++ name ++ dq)%string.

Definition function_not_found_error : GError :=
  mkGError FILTERX_FUNCTION_ERROR_FUNCTION_NOT_FOUND "function not found".

(** ** Arguments and the argument container *)

Record FilterXFunctionArg := mkArg {
  arg_name : option string;
  arg_value : FilterXExpr;
  arg_retrieved : bool
}.

(** [filterx_function_arg_new]: [retrieved] starts FALSE (g_new0). *)
Definition filterx_function_arg_new (name : option string) (value : FilterXExpr) :=
  mkArg name value false.

Definition set_retrieved (a : FilterXFunctionArg) : FilterXFunctionArg :=
  mkArg (arg_name a) (arg_value a) true.

(** The GHashTable of named arguments, as its entries in iteration order. *)
Definition NamedTable := list (string * FilterXFunctionArg).

(** [g_hash_table_insert] on a table with a value destroy function: an
    existing key keeps its place and gets the new value, the old value is
    destroyed (returned as the second component).  New keys are appended:
    GLib iterates its buckets in hash order, which this list order does not
    model. *)
Fixpoint ht_insert (k : string) (v : FilterXFunctionArg) (t : NamedTable)
  : NamedTable * option FilterXFunctionArg :=
  match t with
  | [] => ([(k, v)], None)
  | (k', v') :: t' =>
      if String.eqb k k' then ((k', v) :: t', Some v')
      else let (t'', old) := ht_insert k v t' in ((k', v') :: t'', old)
  end.

Fixpoint ht_lookup (k : string) (t : NamedTable) : option FilterXFunctionArg :=
  match t with
  | [] => None
  | (k', v) :: t' => if String.eqb k k' then Some v else ht_lookup k t'
  end.

(** Set the [retrieved] flag of the entry [ht_lookup] finds. *)
Fixpoint ht_mark (k : string) (t : NamedTable) : NamedTable :=
  match t with
  | [] => []
  | (k', v) :: t' =>
      if String.eqb k k' then (k', set_retrieved v) :: t' else (k', v) :: ht_mark k t'
  end.

Record FilterXFunctionArgs := mkArgs {
  positional_args : list FilterXFunctionArg;
  named_args : NamedTable
}.

(** ** [filterx_function_args_new] *)

(** Outcome of the constructor: the container (or NULL), the error it set,
    the arguments it destroyed, and whether the raw GList was freed. *)
Record BuildOut := mkBuildOut {
  bo_result : option FilterXFunctionArgs;
  bo_error : option GError;
  bo_released : list FilterXFunctionArg;
  bo_list_freed : bool
}.

(** [filterx_function_args_free]: destroys every positional argument and
    every value of the named table. *)
Definition filterx_function_args_free (self : FilterXFunctionArgs) : list FilterXFunctionArg :=
  (positional_args self ++ map snd (named_args self))%list.

(** The loop over the raw list; [released] accumulates the values the hash
    table destroyed on replacement.  Returns the container or the error,
    with the arguments released so far. *)
Fixpoint args_new_loop (has_named : bool) (self : FilterXFunctionArgs)
         (released : list FilterXFunctionArg) (elems : list FilterXFunctionArg)
  : option FilterXFunctionArgs * option GError * list FilterXFunctionArg :=
  match elems with
  | [] => (Some self, None, released)
  | arg :: rest =>
      match arg_name arg with
      | None =>
          if has_named
          then (None, Some ctor_fail_error, (released ++ filterx_function_args_free self)%list)
          else args_new_loop has_named
                 (mkArgs (positional_args self ++ [arg])%list (named_args self)) released rest
      | Some name =>
          let (tbl, old) := ht_insert name arg (named_args self) in
          let released' := match old with Some o => (released ++ [o])%list | None => released end in
          args_new_loop true (mkArgs (positional_args self) tbl) released' rest
      end
  end.

Definition filterx_function_args_new (args : list FilterXFunctionArg) : BuildOut :=
  let '(res, err, released) := args_new_loop false (mkArgs [] []) [] args in
  (* exit: g_list_free(args) *)
  mkBuildOut res err released true.

Definition filterx_function_args_len (self : FilterXFunctionArgs) : nat :=
  length (positional_args self).

Definition filterx_function_args_empty (self : FilterXFunctionArgs) : bool :=
  Nat.eqb (length (positional_args self)) 0 && Nat.eqb (length (named_args self)) 0.

(** ** [filterx_function_args_check] *)

(** [CheckAbort] is the failed [g_assert]: the process aborts. *)
Inductive CheckResult :=
| CheckOk
| CheckFailed (e : GError)
| CheckAbort.

Fixpoint check_named (t : NamedTable) : CheckResult :=
  match t with
  | [] => CheckOk
  | (name, arg) :: t' =>
      if arg_retrieved arg then check_named t' else CheckFailed (unexpected_argument_error name)
  end.

Definition filterx_function_args_check (self : FilterXFunctionArgs) : CheckResult :=
  if forallb arg_retrieved (positional_args self)
  then check_named (named_args self)
  else CheckAbort.

(** ** Specification-side predicates *)

(** Does a positional argument follow a named one in the raw list? *)
Fixpoint positional_after_named_from (seen_named : bool) (l : list FilterXFunctionArg) : bool :=
  match l with
  | [] => false
  | a :: r =>
      match arg_name a with
      | None => seen_named || positional_after_named_from seen_named r
      | Some _ => positional_after_named_from true r
      end
  end.

Definition positional_after_named (l : list FilterXFunctionArg) : bool :=
  positional_after_named_from false l.

Definition is_named (a : FilterXFunctionArg) : bool :=
  match arg_name a with Some _ => true | None => false end.

(** The last named argument called [x] in the raw list. *)
Fixpoint last_named (x : string) (l : list FilterXFunctionArg) : option FilterXFunctionArg :=
  match l with
  | [] => None
  | a :: r =>
      match last_named x r with
      | Some b => Some b
      | None =>
          match arg_name a with
          | Some n => if String.eqb x n then Some a else None
          | None => None
          end
      end
  end.

Definition option_list {A} (o : option A) : list A :=
  match o with Some a => [a] | None => [] end.

(** ** Evaluation-time state *)

(** Observable steps of an evaluation: evaluating an argument expression,
    running [filterx_function_args_check], calling the native function, and
    pushing an error through [filterx_simple_function_argument_error]. *)
Inductive Event :=
| EEval (e : FilterXExpr)
| ECheck
| ENative (args : option (list FilterXObject))
| EArgError (function_name message : string).

Record St := mkSt { st_args : FilterXFunctionArgs; st_trace : list Event }.

(** [Abort] is a failed [g_assert]. *)
Inductive Res (A : Type) := Ok (a : A) | Abort.
Arguments Ok {A} a.
Arguments Abort {A}.

Definition M (A : Type) := St -> Res A * St.

Definition ret {A} (a : A) : M A := fun s => (Ok a, s).

Definition bind {A B} (m : M A) (k : A -> M B) : M B :=
  fun s => match m s with
           | (Ok a, s') => k a s'
           | (Abort, s') => (Abort, s')
           end.

Notation "x <- m ;; k" := (bind m (fun x => k)) (at level 61, m at next level, right associativity).

Definition gets {A} (f : FilterXFunctionArgs -> A) : M A := fun s => (Ok (f (st_args s)), s).

Definition emit (ev : Event) : M unit :=
  fun s => (Ok tt, mkSt (st_args s) (st_trace s ++ [ev])).

Definition put_args (a : FilterXFunctionArgs) : M unit :=
  fun s => (Ok tt, mkSt a (st_trace s)).

(** [filterx_expr_eval], recording the evaluation. *)
Definition filterx_expr_eval (env : Env) (e : FilterXExpr) : M (option FilterXObject) :=
  _ <- emit (EEval e);; ret (expr_value env e).

(** ** Retrieval *)

Fixpoint set_nth_retrieved (i : nat) (l : list FilterXFunctionArg) : list FilterXFunctionArg :=
  match l, i with
  | [], _ => []
  | a :: r, O => set_retrieved a :: r
  | a :: r, S j => a :: set_nth_retrieved j r
  end.

Definition filterx_function_args_get_expr (index : nat) : M (option FilterXExpr) :=
  self <- gets id;;
  if Nat.leb (length (positional_args self)) index then ret None
  else match nth_error (positional_args self) index with
       | None => ret None
       | Some arg =>
           _ <- put_args (mkArgs (set_nth_retrieved index (positional_args self))
                                 (named_args self));;
           ret (Some (arg_value arg))
       end.

Definition filterx_function_args_get_object (env : Env) (index : nat) : M (option FilterXObject) :=
  expr <- filterx_function_args_get_expr index;;
  match expr with
  | None => ret None
  | Some e => filterx_expr_eval env e
  end.

Definition _get_literal_string_from_expr (env : Env) (expr : FilterXExpr)
  : M (option (string * nat)) :=
  if negb (filterx_expr_is_literal expr) then ret None
  else obj <- filterx_expr_eval env expr;;
       match obj with
       | None => ret None
       | Some o => ret (filterx_string_get_value o)
       end.

Definition filterx_function_args_get_literal_string (env : Env) (index : nat)
  : M (option (string * nat)) :=
  expr <- filterx_function_args_get_expr index;;
  match expr with
  | None => ret None
  | Some e => _get_literal_string_from_expr env e
  end.

Definition filterx_function_args_is_literal_null (env : Env) (index : nat) : M bool :=
  expr <- filterx_function_args_get_expr index;;
  match expr with
  | None => ret false
  | Some e =>
      if negb (filterx_expr_is_literal e) then ret false
      else obj <- filterx_expr_eval env e;;
           match obj with
           | None => ret false
           | Some o => ret (is_null o)
           end
  end.

Definition filterx_function_args_get_named_expr (name : string) : M (option FilterXExpr) :=
  self <- gets id;;
  match ht_lookup name (named_args self) with
  | None => ret None
  | Some arg =>
      _ <- put_args (mkArgs (positional_args self) (ht_mark name (named_args self)));;
      ret (Some (arg_value arg))
  end.

(** Named getters return their value and [*exists]. *)
Definition filterx_function_args_get_named_object (env : Env) (name : string)
  : M (option FilterXObject * bool) :=
  expr <- filterx_function_args_get_named_expr name;;
  match expr with
  | None => ret (None, false)
  | Some e => obj <- filterx_expr_eval env e;; ret (obj, true)
  end.

Definition filterx_function_args_get_named_literal_object (env : Env) (name : string)
  : M (option FilterXObject * bool) :=
  expr <- filterx_function_args_get_named_expr name;;
  match expr with
  | None => ret (None, false)
  | Some e =>
      if negb (filterx_expr_is_literal e) then ret (None, true)
      else obj <- filterx_expr_eval env e;; ret (obj, true)
  end.

Definition filterx_function_args_get_named_literal_string (env : Env) (name : string)
  : M (option (string * nat) * bool) :=
  expr <- filterx_function_args_get_named_expr name;;
  match expr with
  | None => ret (None, false)
  | Some e => str <- _get_literal_string_from_expr env e;; ret (str, true)
  end.

(** Returns (value, *exists, *error). *)
Definition filterx_function_args_get_named_literal_generic_number (env : Env) (name : string)
  : M (GenericNumber * bool * bool) :=
  expr <- filterx_function_args_get_named_expr name;;
  match expr with
  | None => ret (GN_NAN, false, false)
  | Some e =>
      if negb (filterx_expr_is_literal e) then ret (GN_NAN, true, true)
      else obj <- filterx_expr_eval env e;;
           match obj with
           | None => ret (GN_NAN, true, true)
           | Some o =>
               if negb (is_primitive o) then ret (GN_NAN, true, true)
               else ret (filterx_primitive_get_value o, true, false)
           end
  end.

Definition filterx_function_args_get_named_literal_boolean (env : Env) (name : string)
  : M (bool * bool * bool) :=
  r <- filterx_function_args_get_named_literal_generic_number env name;;
  let '(gn, exists_, error) := r in
  if negb exists_ || error then ret (false, exists_, error)
  else match gn_type gn with
       | GNT_INT64 => ret (negb (Z.eqb (gn_as_int64 gn) 0), exists_, error)
       | _ => ret (false, exists_, true)
       end.

Definition filterx_function_args_get_named_literal_integer (env : Env) (name : string)
  : M (Z * bool * bool) :=
  r <- filterx_function_args_get_named_literal_generic_number env name;;
  let '(gn, exists_, error) := r in
  if negb exists_ || error then ret (0%Z, exists_, error)
  else match gn_type gn with
       | GNT_INT64 => ret (gn_as_int64 gn, exists_, error)
       | _ => ret (0%Z, exists_, true)
       end.

Definition filterx_function_args_get_named_literal_double (env : Env) (name : string)
  : M (Q * bool * bool) :=
  r <- filterx_function_args_get_named_literal_generic_number env name;;
  let '(gn, exists_, error) := r in
  if negb exists_ || error then ret (0%Q, exists_, error)
  else match gn_type gn with
       | GNT_DOUBLE => ret (gn_as_double gn, exists_, error)
       | _ => ret (0%Q, exists_, true)
       end.

(** Every retrieval entry point of the container, with its target. *)
Inductive Retrieval :=
| RGetExpr (index : nat)
| RGetObject (index : nat)
| RGetLiteralString (index : nat)
| RIsLiteralNull (index : nat)
| RGetNamedExpr (name : string)
| RGetNamedObject (name : string)
| RGetNamedLiteralObject (name : string)
| RGetNamedLiteralString (name : string)
| RGetNamedLiteralBoolean (name : string)
| RGetNamedLiteralInteger (name : string)
| RGetNamedLiteralDouble (name : string)
| RGetNamedLiteralGenericNumber (name : string).

(** Run one retrieval, discarding what it returns. *)
Definition run_retrieval (env : Env) (r : Retrieval) : M unit :=
  match r with
  | RGetExpr i => _ <- filterx_function_args_get_expr i;; ret tt
  | RGetObject i => _ <- filterx_function_args_get_object env i;; ret tt
  | RGetLiteralString i => _ <- filterx_function_args_get_literal_string env i;; ret tt
  | RIsLiteralNull i => _ <- filterx_function_args_is_literal_null env i;; ret tt
  | RGetNamedExpr n => _ <- filterx_function_args_get_named_expr n;; ret tt
  | RGetNamedObject n => _ <- filterx_function_args_get_named_object env n;; ret tt
  | RGetNamedLiteralObject n => _ <- filterx_function_args_get_named_literal_object env n;; ret tt
  | RGetNamedLiteralString n => _ <- filterx_function_args_get_named_literal_string env n;; ret tt
  | RGetNamedLiteralBoolean n => _ <- filterx_function_args_get_named_literal_boolean env n;; ret tt
  | RGetNamedLiteralInteger n => _ <- filterx_function_args_get_named_literal_integer env n;; ret tt
  | RGetNamedLiteralDouble n => _ <- filterx_function_args_get_named_literal_double env n;; ret tt
  | RGetNamedLiteralGenericNumber n =>
      _ <- filterx_function_args_get_named_literal_generic_number env n;; ret tt
  end.

Fixpoint run_retrievals (env : Env) (rs : list Retrieval) : M unit :=
  match rs with
  | [] => ret tt
  | r :: rs' => _ <- run_retrieval env r;; run_retrievals env rs'
  end.

(** The argument a retrieval targets, if it exists. *)
Definition retrieval_target (self : FilterXFunctionArgs) (r : Retrieval) : option FilterXFunctionArg :=
  match r with
  | RGetExpr i | RGetObject i | RGetLiteralString i | RIsLiteralNull i =>
      nth_error (positional_args self) i
  | RGetNamedExpr n | RGetNamedObject n | RGetNamedLiteralObject n
  | RGetNamedLiteralString n | RGetNamedLiteralBoolean n | RGetNamedLiteralInteger n
  | RGetNamedLiteralDouble n | RGetNamedLiteralGenericNumber n =>
      ht_lookup n (named_args self)
  end.

(** ** The simple-function wrapper *)

(** [filterx_function_args_check] as called by the wrapper: a failed
    [g_assert] aborts. *)
Definition run_args_check : M CheckResult :=
  self <- gets id;;
  _ <- emit ECheck;;
  match filterx_function_args_check self with
  | CheckAbort => fun s => (Abort, s)
  | r => ret r
  end.

Definition filterx_simple_function_argument_error (function_name message : string) : M unit :=
  emit (EArgError function_name message).

Fixpoint eval_args_loop (env : Env) (idxs : list nat) (res : list FilterXObject)
  : M (option (list FilterXObject)) :=
  match idxs with
  | [] => ret (Some res)
  | i :: idxs' =>
      obj <- filterx_function_args_get_object env i;;
      match obj with
      | None => ret None
      | Some o => eval_args_loop env idxs' (res ++ [o])
      end
  end.

Definition _simple_function_eval_args (env : Env) (function_name : string)
  : M (option (list FilterXObject)) :=
  len <- gets filterx_function_args_len;;
  res <- eval_args_loop env (seq 0 len) [];;
  match res with
  | None => ret None
  | Some objs =>
      r <- run_args_check;;
      match r with
      | CheckFailed e =>
          _ <- filterx_simple_function_argument_error function_name (err_message e);;
          ret None
      | _ => ret (Some objs)
      end
  end.

(** The native function of a simple function: the evaluated argument array
    (NULL when the container is empty) to a result, or NULL on failure. *)
Definition FilterXSimpleFunctionProto := option (list FilterXObject) -> option FilterXObject.

Definition call_native (f : FilterXSimpleFunctionProto) (args : option (list FilterXObject))
  : M (option FilterXObject) :=
  _ <- emit (ENative args);; ret (f args).

Definition _simple_eval (env : Env) (function_name : string) (f : FilterXSimpleFunctionProto)
  : M (option FilterXObject) :=
  empty <- gets filterx_function_args_empty;;
  if negb empty then
    args <- _simple_function_eval_args env function_name;;
    match args with
    | None => ret None
    | Some a => call_native f (Some a)
    end
  else call_native f None.

(** [filterx_function_init_instance]: the display name is "name()". *)
Definition display_name (function_name : string) : string := (function_name ++ "()")%string.

(** ** Function lookup *)

(** Expression nodes a lookup can produce: a simple function (display
    name, owned container, native function), or a node built by a general
    function constructor, known here only by an identifier. *)
Inductive FilterXFunctionExpr :=
| SimpleFunction (function_name : string) (args : FilterXFunctionArgs)
                 (function_proto : FilterXSimpleFunctionProto)
| ConstructedFunction (node : nat) (function_name : string) (args : FilterXFunctionArgs).

(** [filterx_simple_function_new]. *)
Definition filterx_simple_function_new (function_name : string) (args : FilterXFunctionArgs)
           (f : FilterXSimpleFunctionProto) : FilterXFunctionExpr :=
  SimpleFunction (display_name function_name) args f.

(** A general function constructor: name, container and the caller's error
    to the node (or NULL) and the error it leaves set. *)
Definition FilterXFunctionCtor :=
  string -> FilterXFunctionArgs -> option GError -> option FilterXFunctionExpr * option GError.

(** A plugin of the registry: [plugin_construct] yields the pointer the
    plugin provides for its context, or NULL. *)
Record Plugin (A : Type) := mkPlugin { plugin_construct : option A }.
Arguments mkPlugin {A} _.
Arguments plugin_construct {A} _.

(** [cfg_find_plugin] for the two ordinary-call contexts,
    LL_CONTEXT_FILTERX_SIMPLE_FUNC and LL_CONTEXT_FILTERX_FUNC. *)
Record GlobalConfig := mkConfig {
  cfg_find_simple_func_plugin : string -> option (Plugin FilterXSimpleFunctionProto);
  cfg_find_func_plugin : string -> option (Plugin FilterXFunctionCtor)
}.

Section Lookup.
(** The built-in tables. *)
Variable filterx_builtin_simple_function_lookup : string -> option FilterXSimpleFunctionProto.
Variable filterx_builtin_function_ctor_lookup : string -> option FilterXFunctionCtor.

Definition _lookup_simple_function (cfg : GlobalConfig) (function_name : string)
           (args : FilterXFunctionArgs) : option FilterXFunctionExpr :=
  match filterx_builtin_simple_function_lookup function_name with
  | Some f => Some (filterx_simple_function_new function_name args f)
  | None =>
      match cfg_find_simple_func_plugin cfg function_name with
      | None => None
      | Some p =>
          match plugin_construct p with
          | None => None
          | Some f => Some (filterx_simple_function_new function_name args f)
          end
      end
  end.

Definition _lookup_function (cfg : GlobalConfig) (function_name : string)
           (args : FilterXFunctionArgs) (error : option GError)
  : option FilterXFunctionExpr * option GError :=
  let ctor :=
    match filterx_builtin_function_ctor_lookup function_name with
    | Some c => Some (Some c)
    | None =>
        match cfg_find_func_plugin cfg function_name with
        | None => None
        | Some p => Some (plugin_construct p)
        end
    end in
  match ctor with
  | None => (None, error)
  | Some None => (None, error)
  | Some (Some c) => c function_name args error
  end.

(** [filterx_function_lookup]; following the GLib convention the caller's
    error is unset on entry. *)
Definition filterx_function_lookup (cfg : GlobalConfig) (function_name : string)
           (args_list : list FilterXFunctionArg)
  : option FilterXFunctionExpr * option GError :=
  let bo := filterx_function_args_new args_list in
  match bo_result bo with
  | None => (None, bo_error bo)
  | Some args =>
      match _lookup_simple_function cfg function_name args with
      | Some expr => (Some expr, bo_error bo)
      | None =>
          let (expr, error) := _lookup_function cfg function_name args (bo_error bo) in
          match expr with
          | Some e => (Some e, error)
          | None =>
              match error with
              | None => (None, Some function_not_found_error)
              | Some e => (None, Some e)
              end
          end
      end
  end.
End Lookup.

(** ** Generator-function lookup *)

Section GeneratorLookup.
(** The built-in generator table, and [cfg_find_plugin] in the
    LL_CONTEXT_FILTERX_GEN_FUNC context. *)
Variable filterx_builtin_generator_function_ctor_lookup : string -> option FilterXFunctionCtor.
Variable cfg_find_gen_func_plugin : GlobalConfig -> string -> option (Plugin FilterXFunctionCtor).

Definition _lookup_generator_function (cfg : GlobalConfig) (function_name : string)
           (args : FilterXFunctionArgs) (error : option GError)
  : option FilterXFunctionExpr * option GError :=
  let ctor :=
    match filterx_builtin_generator_function_ctor_lookup function_name with
    | Some c => Some (Some c)
    | None =>
        match cfg_find_gen_func_plugin cfg function_name with
        | None => None
        | Some p => Some (plugin_construct p)
        end
    end in
  match ctor with
  | None => (None, error)
  | Some None => (None, error)
  | Some (Some c) => c function_name args error
  end.

(** [filterx_generator_function_lookup]; the caller's error is unset on
    entry. *)
Definition filterx_generator_function_lookup (cfg : GlobalConfig) (function_name : string)
           (args_list : list FilterXFunctionArg)
  : option FilterXFunctionExpr * option GError :=
  let bo := filterx_function_args_new args_list in
  match bo_result bo with
  | None => (None, bo_error bo)
  | Some args =>
      let (expr, error) := _lookup_generator_function cfg function_name args (bo_error bo) in
      match expr with
      | Some e => (Some e, error)
      | None =>
          match error with
          | None => (None, Some function_not_found_error)
          | Some e => (None, Some e)
          end
      end
  end.
End GeneratorLookup.

(** ** Auxiliary definitions of the proofs *)

(** Positional and named raw arguments. *)
Definition pa (e : FilterXExpr) := filterx_function_arg_new None e.
Definition na (n : string) (e : FilterXExpr) := filterx_function_arg_new (Some n) e.

(** Concrete containers and states used at concrete inputs below. *)
Definition two_unretrieved : FilterXFunctionArgs :=
  mkArgs [] [("a", na "a" (ENonLiteral 0)); ("b", na "b" (ENonLiteral 1))].

Definition one_unretrieved : FilterXFunctionArgs :=
  mkArgs [set_retrieved (pa (ENonLiteral 0))]
         [("a", set_retrieved (na "a" (ENonLiteral 1))); ("b", na "b" (ENonLiteral 2))].

Definition n_table (e : FilterXExpr) : St := mkSt (mkArgs [] [("n", na "n" e)]) [].

(** Evaluate expressions in order, stopping at the first failure: the
    expressions evaluated, and the values when all succeed. *)
Fixpoint eval_prefix (env : Env) (es : list FilterXExpr)
  : list FilterXExpr * option (list FilterXObject) :=
  match es with
  | [] => ([], Some [])
  | e :: es' =>
      match expr_value env e with
      | None => ([e], None)
      | Some o => let (ev, r) := eval_prefix env es' in (e :: ev, option_map (cons o) r)
      end
  end.

Definition pos_value (s : St) (i : nat) : FilterXExpr :=
  nth i (map arg_value (positional_args (st_args s))) (ENonLiteral 0).

Definition mark_all (idxs : list nat) (l : list FilterXFunctionArg) : list FilterXFunctionArg :=
  fold_left (fun l i => set_nth_retrieved i l) idxs l.

Definition is_check (ev : Event) : bool := match ev with ECheck => true | _ => false end.
Definition is_eval (ev : Event) : bool := match ev with EEval _ => true | _ => false end.
Definition check_count (tr : list Event) : nat := length (filter is_check tr).

Definition one_positional : St := mkSt (mkArgs [pa (ELiteral (OInteger 1))] []) [].

Definition preserves_args {A} (m : M A) : Prop := forall s, st_args (snd (m s)) = st_args s.

(** The first step of a retrieval: fetching the argument expression. *)
Definition retrieval_access (r : Retrieval) : M (option FilterXExpr) :=
  match r with
  | RGetExpr i | RGetObject i | RGetLiteralString i | RIsLiteralNull i =>
      filterx_function_args_get_expr i
  | RGetNamedExpr n | RGetNamedObject n | RGetNamedLiteralObject n
  | RGetNamedLiteralString n | RGetNamedLiteralBoolean n | RGetNamedLiteralInteger n
  | RGetNamedLiteralDouble n | RGetNamedLiteralGenericNumber n =>
      filterx_function_args_get_named_expr n
  end.

Definition retrieval_name (r : Retrieval) : option string :=
  match r with
  | RGetExpr _ | RGetObject _ | RGetLiteralString _ | RIsLiteralNull _ => None
  | RGetNamedExpr n | RGetNamedObject n | RGetNamedLiteralObject n
  | RGetNamedLiteralString n | RGetNamedLiteralBoolean n | RGetNamedLiteralInteger n
  | RGetNamedLiteralDouble n | RGetNamedLiteralGenericNumber n => Some n
  end.

(** A named argument that has been retrieved, in a table with unique keys. *)
Definition named_retrieved (n : string) (args : FilterXFunctionArgs) : Prop :=
  NoDup (map fst (named_args args)) /\
  exists b, ht_lookup n (named_args args) = Some b /\ arg_retrieved b = true.

(** A concrete configuration: the built-in simple table holds "f" only, no
    constructors, no plugins. *)
Definition native_null : FilterXSimpleFunctionProto := fun _ => Some ONull.

Definition builtins_f (n : string) : option FilterXSimpleFunctionProto :=
  if String.eqb n "f" then Some native_null else None.

Definition no_ctors (n : string) : option FilterXFunctionCtor := None.

Definition empty_cfg : GlobalConfig := mkConfig (fun _ => None) (fun _ => None).

Definition is_positional (a : FilterXFunctionArg) : bool := negb (is_named a).

(** [b] is [a] after possibly more retrievals: same name and value, and a
    set [retrieved] flag stays set. *)
Definition arg_le (a b : FilterXFunctionArg) : Prop :=
  arg_name a = arg_name b /\ arg_value a = arg_value b /\
  (arg_retrieved a = true -> arg_retrieved b = true).

(** The same arguments in the same places (positions, table keys and
    iteration order), with retrieval flags only ever set. *)
Definition args_le (x y : FilterXFunctionArgs) : Prop :=
  Forall2 arg_le (positional_args x) (positional_args y) /\
  Forall2 (fun p q => fst p = fst q /\ arg_le (snd p) (snd q)) (named_args x) (named_args y).

(** The position a by-index retrieval reads. *)
Definition retrieval_index (r : Retrieval) : option nat :=
  match r with
  | RGetExpr i | RGetObject i | RGetLiteralString i | RIsLiteralNull i => Some i
  | _ => None
  end.

(** A computation that returns [v] without evaluating anything. *)
Definition unevaluated {A} (m : M A) (s : St) (v : A) : Prop :=
  fst (m s) = Ok v /\ st_trace (snd (m s)) = st_trace s.

(** Two containers with the same named table and the same positional
    argument expressions (retrieval flags of positional arguments aside). *)
Definition same_inputs (x y : FilterXFunctionArgs) : Prop :=
  named_args x = named_args y /\
  map arg_value (positional_args x) = map arg_value (positional_args y).

Definition keeps_inputs {A} (m : M A) : Prop :=
  forall s, same_inputs (st_args (snd (m s))) (st_args s).

(** [y] is [x] with at most some [retrieved] flags of positional arguments
    set: the same named table, the same positional arguments in the same
    places with the same names and expressions. *)
Definition flags_only (x y : FilterXFunctionArgs) : Prop :=
  named_args y = named_args x /\ Forall2 arg_le (positional_args x) (positional_args y).

Definition keeps_flags {A} (m : M A) : Prop :=
  forall s, flags_only (st_args s) (st_args (snd (m s))).

(** A concrete generator configuration: the built-in generator table holds
    "g" only, whose constructor always succeeds; no generator plugins. *)
Definition gen_ctor : FilterXFunctionCtor :=
  fun name args err => (Some (ConstructedFunction 0 name args), err).

Definition builtin_gen_g (n : string) : option FilterXFunctionCtor :=
  if String.eqb n "g" then Some gen_ctor else None.

Definition no_gen_plugins (cfg : GlobalConfig) (n : string) : option (Plugin FilterXFunctionCtor) :=
  None.

(** A raw list with a positional argument and a repeated name. *)
Definition dup_raw : list FilterXFunctionArg :=
  [pa (ENonLiteral 0); na "x" (ENonLiteral 1); na "x" (ENonLiteral 2)].

(** ** Tests of the constructor and of check *)

Example args_new_test_ok :
  bo_result (filterx_function_args_new [pa (ENonLiteral 0); na "x" (ENonLiteral 1)])
  = Some (mkArgs [pa (ENonLiteral 0)] [("x", na "x" (ENonLiteral 1))]).
Proof. reflexivity. Qed.

Example args_new_test_fail :
  filterx_function_args_new [na "x" (ENonLiteral 1); pa (ENonLiteral 0); pa (ENonLiteral 2)]
  = mkBuildOut None (Some ctor_fail_error) [na "x" (ENonLiteral 1)] true.
Proof. reflexivity. Qed.

Example check_test :
  filterx_function_args_check
    (mkArgs [set_retrieved (pa (ENonLiteral 0))] [("x", na "x" (ENonLiteral 1))])
  = CheckFailed (unexpected_argument_error "x").
Proof. reflexivity. Qed.

(** ** Lemmas on the hash table model *)

Lemma ht_insert_perm k v t :
  Permutation (map snd (fst (ht_insert k v t)) ++ option_list (snd (ht_insert k v t)))
              (map snd t ++ [v]).
Proof.
  induction t as [|[k' v'] t IH]; simpl; [reflexivity|].
  destruct (String.eqb k k'); simpl.
  - transitivity (v :: v' :: map snd t).
    + constructor. symmetry. apply Permutation_cons_append.
    + transitivity (v' :: v :: map snd t); [constructor|].
      constructor. apply Permutation_cons_append.
  - destruct (ht_insert k v t) as [t'' old]. simpl in *. constructor. exact IH.
Qed.

Lemma ht_insert_keys_nodup k v t :
  NoDup (map fst t) -> NoDup (map fst (fst (ht_insert k v t))).
Proof.
  induction t as [|[k' v'] t IH]; simpl; intros Hnd.
  - constructor; [intros []|constructor].
  - inversion Hnd as [|? ? Hnin Hnd']; subst.
    destruct (String.eqb k k') eqn:E; simpl; [constructor; assumption|].
    assert (Hkeys : forall t0, In k' (map fst (fst (ht_insert k v t0))) ->
                               k' = k \/ In k' (map fst t0)).
    { clear. induction t0 as [|[k0 v0] t0 IH0]; simpl.
      - intros [H|[]]; left; congruence.
      - destruct (String.eqb k k0); simpl.
        + intros [H|H]; right; tauto.
        + destruct (ht_insert k v t0) as [t1 o1]. simpl in *.
          intros [H|H]; [tauto|]. destruct (IH0 H); tauto. }
    destruct (ht_insert k v t) as [t'' old] eqn:Ei. simpl in *.
    constructor.
    + intros Hin. specialize (Hkeys t). rewrite Ei in Hkeys. simpl in Hkeys.
      destruct (Hkeys Hin) as [->|H]; [rewrite String.eqb_refl in E; discriminate|contradiction].
    + apply IH; assumption.
Qed.

Lemma ht_lookup_insert x k v t :
  ht_lookup x (fst (ht_insert k v t)) = if String.eqb x k then Some v else ht_lookup x t.
Proof.
  induction t as [|[k' v'] t IH]; simpl; [reflexivity|].
  destruct (String.eqb k k') eqn:E; simpl.
  - apply String.eqb_eq in E; subst k'. destruct (String.eqb x k); reflexivity.
  - destruct (ht_insert k v t) as [t'' old] eqn:Ei. simpl in *.
    destruct (String.eqb x k') eqn:E2; [|exact IH].
    apply String.eqb_eq in E2; subst x.
    destruct (String.eqb k' k) eqn:E3; [|reflexivity].
    apply String.eqb_eq in E3; subst. rewrite String.eqb_refl in E. discriminate.
Qed.

(** ** The constructor loop *)

Lemma args_new_loop_violation elems : forall has_named self released,
  positional_after_named_from has_named elems = true ->
  exists pre a post R,
    args_new_loop has_named self released elems = (None, Some ctor_fail_error, R) /\
    elems = pre ++ a :: post /\ arg_name a = None /\
    positional_after_named_from has_named pre = false /\
    (has_named || existsb is_named pre) = true /\
    Permutation R (released ++ filterx_function_args_free self ++ pre).
Proof.
  induction elems as [|a r IH]; intros has_named self released H; simpl in H; [discriminate|].
  simpl. destruct (arg_name a) as [n|] eqn:Ea.
  - destruct (ht_insert n a (named_args self)) as [tbl old] eqn:Ei.
    destruct (IH true (mkArgs (positional_args self) tbl)
                (match old with Some o => (released ++ [o])%list | None => released end) H)
      as (pre & b & post & R & Hrun & -> & Hb & Hpre & _ & Hperm).
    exists (a :: pre), b, post, R. repeat split; auto.
    + simpl. rewrite Ea. exact Hpre.
    + simpl. unfold is_named. rewrite Ea. apply orb_true_r.
    + rewrite Hperm. unfold filterx_function_args_free. simpl.
      pose proof (ht_insert_perm n a (named_args self)) as Hp. rewrite Ei in Hp. simpl in Hp.
      replace (match old with Some o => (released ++ [o])%list | None => released end)
        with (released ++ option_list old)%list by (destruct old; simpl; auto using app_nil_r).
      rewrite <- !app_assoc. apply Permutation_app_head.
      transitivity (positional_args self ++ (map snd tbl ++ option_list old) ++ pre)%list.
      * rewrite !app_assoc. apply Permutation_app_tail.
        rewrite <- app_assoc. apply Permutation_app_comm.
      * apply Permutation_app_head. rewrite Hp. rewrite <- app_assoc. reflexivity.
  - destruct has_named.
    + exists [], a, r, (released ++ filterx_function_args_free self)%list.
      repeat split; auto. rewrite app_nil_r. reflexivity.
    + simpl in H.
      destruct (IH false (mkArgs (positional_args self ++ [a]) (named_args self)) released H)
        as (pre & b & post & R & Hrun & -> & Hb & Hpre & Hnamed & Hperm).
      exists (a :: pre), b, post, R. repeat split; auto.
      * simpl. rewrite Ea. exact Hpre.
      * simpl. unfold is_named at 1. rewrite Ea. exact Hnamed.
      * rewrite Hperm. unfold filterx_function_args_free. simpl.
        apply Permutation_app_head. rewrite <- !app_assoc. apply Permutation_app_head.
        simpl. apply Permutation_middle.
Qed.

Lemma args_new_loop_ok elems : forall has_named self released,
  positional_after_named_from has_named elems = false ->
  exists c R,
    args_new_loop has_named self released elems = (Some c, None, R) /\
    (NoDup (map fst (named_args self)) -> NoDup (map fst (named_args c))) /\
    forall x, ht_lookup x (named_args c) =
              match last_named x elems with
              | Some b => Some b
              | None => ht_lookup x (named_args self)
              end.
Proof.
  induction elems as [|a r IH]; intros has_named self released H; simpl in H.
  - exists self, released. simpl. auto.
  - simpl. destruct (arg_name a) as [n|] eqn:Ea.
    + destruct (ht_insert n a (named_args self)) as [tbl old] eqn:Ei.
      destruct (IH true (mkArgs (positional_args self) tbl)
                  (match old with Some o => (released ++ [o])%list | None => released end) H)
        as (c & R & Hrun & Hnd & Hlk).
      exists c, R. split; [exact Hrun|]. split.
      * intros Hnd0. apply Hnd. simpl.
        pose proof (ht_insert_keys_nodup n a _ Hnd0) as Hk. rewrite Ei in Hk. exact Hk.
      * intros x. rewrite Hlk. simpl.
        pose proof (ht_lookup_insert x n a (named_args self)) as Hl. rewrite Ei in Hl.
        simpl in Hl. rewrite Hl. destruct (last_named x r); [reflexivity|]. destruct (String.eqb x n); reflexivity.
    + destruct has_named; [discriminate|]. simpl in H.
      destruct (IH false (mkArgs (positional_args self ++ [a]) (named_args self)) released H)
        as (c & R & Hrun & Hnd & Hlk).
      exists c, R. split; [exact Hrun|]. split; [exact Hnd|].
      intros x. rewrite Hlk. simpl. destruct (last_named x r); reflexivity.
Qed.

Lemma ht_insert_old k v t : snd (ht_insert k v t) = ht_lookup k t.
Proof.
  induction t as [|[k' v'] t IH]; simpl; [reflexivity|].
  destruct (String.eqb k k'); [reflexivity|].
  destruct (ht_insert k v t) as [t'' old]. exact IH.
Qed.

Lemma args_new_loop_released_mono elems : forall h self rel c err R,
  args_new_loop h self rel elems = (Some c, err, R) -> forall b, In b rel -> In b R.
Proof.
  induction elems as [|a r IH]; intros h self rel c err R H b Hb; simpl in H.
  - inversion H; subst. exact Hb.
  - destruct (arg_name a) as [n|].
    + destruct (ht_insert n a (named_args self)) as [tbl old].
      apply (IH _ _ _ _ _ _ H). destruct old; [apply in_or_app; left|]; exact Hb.
    + destruct h; [discriminate|]. exact (IH _ _ _ _ _ _ H b Hb).
Qed.

(** The value a name holds in the table is released once a later argument
    of the same name is inserted. *)
Lemma args_new_loop_replaced elems : forall h self rel c err R x b,
  args_new_loop h self rel elems = (Some c, err, R) ->
  ht_lookup x (named_args self) = Some b ->
  In (Some x) (map arg_name elems) -> In b R.
Proof.
  induction elems as [|a r IH]; intros h self rel c err R x b H Hlk Hin;
    simpl in Hin; [contradiction|]. simpl in H.
  destruct (arg_name a) as [n|] eqn:Ea.
  - pose proof (ht_insert_old n a (named_args self)) as Ho.
    pose proof (ht_lookup_insert x n a (named_args self)) as Hl.
    destruct (ht_insert n a (named_args self)) as [tbl old]. simpl in Ho, Hl.
    destruct (String.eqb x n) eqn:Exn.
    + apply String.eqb_eq in Exn. subst n. rewrite Hlk in Ho. subst old.
      apply (args_new_loop_released_mono _ _ _ _ _ _ _ H).
      apply in_or_app. right. left. reflexivity.
    + destruct Hin as [Hin|Hin].
      * injection Hin as Hnx. subst n. rewrite String.eqb_refl in Exn. discriminate.
      * apply (IH _ _ _ _ _ _ x b H); [simpl; rewrite Hl; exact Hlk|exact Hin].
  - destruct h; [discriminate|].
    destruct Hin as [Hin|Hin]; [discriminate|].
    exact (IH _ _ _ _ _ _ x b H Hlk Hin).
Qed.

(** A named argument followed by another of the same name is released. *)
Lemma args_new_loop_earlier elems : forall h self rel c err R pre b post x,
  args_new_loop h self rel elems = (Some c, err, R) ->
  elems = pre ++ b :: post -> arg_name b = Some x ->
  In (Some x) (map arg_name post) -> In b R.
Proof.
  induction elems as [|a r IH]; intros h self rel c err R pre b post x H He Hb Hpost.
  - destruct pre; discriminate.
  - simpl in H. destruct pre as [|a' pre'].
    + injection He as Hab Hr. subst a r. rewrite Hb in H.
      pose proof (ht_lookup_insert x x b (named_args self)) as Hl.
      destruct (ht_insert x b (named_args self)) as [tbl old]. simpl in Hl.
      rewrite String.eqb_refl in Hl.
      exact (args_new_loop_replaced _ _ _ _ _ _ _ x b H Hl Hpost).
    + injection He as Ha Hr. subst a'.
      destruct (arg_name a) as [n|].
      * destruct (ht_insert n a (named_args self)) as [tbl old].
        exact (IH _ _ _ _ _ _ pre' b post x H Hr Hb Hpost).
      * destruct h; [discriminate|].
        exact (IH _ _ _ _ _ _ pre' b post x H Hr Hb Hpost).
Qed.

Lemma check_named_never_aborts t : check_named t <> CheckAbort.
Proof.
  induction t as [|[k v] t IH]; simpl; [discriminate|].
  destruct (arg_retrieved v); [exact IH|discriminate].
Qed.

Lemma check_named_ok t :
  (forall x a, In (x, a) t -> arg_retrieved a = true) -> check_named t = CheckOk.
Proof.
  induction t as [|[k v] t IH]; simpl; intros H; [reflexivity|].
  rewrite (H k v (or_introl eq_refl)). apply IH. intros x a Hin. exact (H x a (or_intror Hin)).
Qed.

Lemma check_named_first t :
  (exists x a, In (x, a) t /\ arg_retrieved a = false) ->
  exists pre x a post,
    t = pre ++ (x, a) :: post /\ arg_retrieved a = false /\
    Forall (fun p => arg_retrieved (snd p) = true) pre /\
    check_named t = CheckFailed (unexpected_argument_error x).
Proof.
  induction t as [|[k v] t IH]; simpl; intros (x & a & Hin & Ha); [contradiction|].
  destruct (arg_retrieved v) eqn:Ev.
  - destruct Hin as [Heq|Hin]; [inversion Heq; subst; congruence|].
    destruct (IH (ex_intro _ x (ex_intro _ a (conj Hin Ha))))
      as (pre & y & b & post & -> & Hb & Hpre & Hc).
    exists ((k, v) :: pre), y, b, post. repeat split; auto.
  - exists [], k, v, t. repeat split; auto.
Qed.

(** ** Claims on construction and validation *)

(** C1 (corrected).  When a positional argument follows a named one,
    [filterx_function_args_new] returns no container and sets the
    construction error "cannot set positional argument after a named
    argument"; every argument consumed before the offending one is
    released (each occurrence at least once); the raw list is freed in
    every case. *)
Theorem args_new_positional_after_named (raw : list FilterXFunctionArg) :
  bo_list_freed (filterx_function_args_new raw) = true /\
  (positional_after_named raw = true ->
   let bo := filterx_function_args_new raw in
   bo_result bo = None /\
   bo_error bo = Some (mkGError FILTERX_FUNCTION_ERROR_CTOR_FAIL
                         "cannot set positional argument after a named argument") /\
   exists pre a post,
     raw = pre ++ a :: post /\ arg_name a = None /\
     positional_after_named pre = false /\ existsb is_named pre = true /\
     exists other, Permutation (bo_released bo) (pre ++ other)).
Proof.
  unfold filterx_function_args_new.
  destruct (args_new_loop false (mkArgs [] []) [] raw) as [[res err] rel] eqn:Hrun.
  split; [reflexivity|]. intros H. cbv zeta. simpl.
  destruct (args_new_loop_violation raw false (mkArgs [] []) [] H)
    as (pre & a & post & R & Hrun' & Hraw & Ha & Hpre & Hnamed & Hperm).
  rewrite Hrun in Hrun'. inversion Hrun'; subst. repeat split; auto.
  exists pre, a, post. repeat split; auto.
  exists []. rewrite app_nil_r. exact Hperm.
Qed.

(** C1: witness of [args_new_positional_after_named]. *)
Lemma args_new_positional_after_named_witness :
  positional_after_named [na "x" (ENonLiteral 1); pa (ENonLiteral 0)] = true /\
  bo_result (filterx_function_args_new [na "x" (ENonLiteral 1); pa (ENonLiteral 0)]) = None.
Proof.
  split; [reflexivity|].
  exact (proj1 (proj2 (args_new_positional_after_named
                         [na "x" (ENonLiteral 1); pa (ENonLiteral 0)]) eq_refl)).
Defined.

(** C1: the construction error's message is not "positional argument after
    a named argument". *)
Lemma args_new_message_counterexample :
  option_map err_message
    (bo_error (filterx_function_args_new [na "x" (ENonLiteral 1); pa (ENonLiteral 0)]))
  <> Some "positional argument after a named argument".
Proof. vm_compute. discriminate. Qed.

(** C5 (corrected).  For every raw list with no positional argument after a
    named one, [filterx_function_args_new] builds a container without error,
    whose named table has unique keys and maps each name to the LAST named
    argument of that name in the raw list: a repeated name silently replaces
    the earlier argument, and every named argument followed by another of
    the same name is released. *)
Theorem args_new_named_last_writer_wins (raw : list FilterXFunctionArg) :
  positional_after_named raw = false ->
  exists c,
    bo_result (filterx_function_args_new raw) = Some c /\
    bo_error (filterx_function_args_new raw) = None /\
    NoDup (map fst (named_args c)) /\
    (forall x, ht_lookup x (named_args c) = last_named x raw) /\
    forall pre b post x,
      raw = pre ++ b :: post -> arg_name b = Some x -> In (Some x) (map arg_name post) ->
      In b (bo_released (filterx_function_args_new raw)).
Proof.
  intros H. unfold filterx_function_args_new.
  destruct (args_new_loop_ok raw false (mkArgs [] []) [] H) as (c & R & Hrun & Hnd & Hlk).
  rewrite Hrun. simpl. exists c. repeat split; auto.
  - apply Hnd. constructor.
  - intros x. rewrite Hlk. destruct (last_named x raw); reflexivity.
  - intros pre b post x Hr Hb Hpost.
    exact (args_new_loop_earlier _ _ _ _ _ _ _ pre b post x Hrun Hr Hb Hpost).
Qed.

(** C5: witness of [args_new_named_last_writer_wins]. *)
Lemma args_new_named_last_writer_wins_witness :
  exists c,
    bo_result (filterx_function_args_new
                 [na "x" (ELiteral (OInteger 1)); na "x" (ELiteral (OInteger 2))]) = Some c /\
    bo_error (filterx_function_args_new
                [na "x" (ELiteral (OInteger 1)); na "x" (ELiteral (OInteger 2))]) = None /\
    NoDup (map fst (named_args c)) /\
    (forall x, ht_lookup x (named_args c) =
               last_named x [na "x" (ELiteral (OInteger 1)); na "x" (ELiteral (OInteger 2))]) /\
    forall pre b post x,
      [na "x" (ELiteral (OInteger 1)); na "x" (ELiteral (OInteger 2))] = pre ++ b :: post ->
      arg_name b = Some x -> In (Some x) (map arg_name post) ->
      In b (bo_released (filterx_function_args_new
                           [na "x" (ELiteral (OInteger 1)); na "x" (ELiteral (OInteger 2))])).
Proof.
  apply (args_new_named_last_writer_wins
           [na "x" (ELiteral (OInteger 1)); na "x" (ELiteral (OInteger 2))]).
  reflexivity.
Defined.

(** C5: two named arguments called "x" give a container whose only "x" entry
    is the later argument; the earlier one is destroyed, with no error. *)
Lemma args_new_duplicate_name_counterexample :
  filterx_function_args_new [na "x" (ELiteral (OInteger 1)); na "x" (ELiteral (OInteger 2))]
  = mkBuildOut (Some (mkArgs [] [("x", na "x" (ELiteral (OInteger 2)))])) None
               [na "x" (ELiteral (OInteger 1))] true.
Proof. reflexivity. Qed.

(** C2 (corrected).  When every positional argument has been retrieved:
    if every named argument has been retrieved, check succeeds; if some named
    argument has not, check fails with the unexpected-argument error naming
    the FIRST unretrieved named argument in the table's iteration order, so
    that when exactly one named argument is unretrieved, the error names it. *)
Theorem args_check_named (c : FilterXFunctionArgs) :
  forallb arg_retrieved (positional_args c) = true ->
  ((forall x a, In (x, a) (named_args c) -> arg_retrieved a = true) ->
   filterx_function_args_check c = CheckOk) /\
  ((exists x a, In (x, a) (named_args c) /\ arg_retrieved a = false) ->
   exists pre x a post,
     named_args c = pre ++ (x, a) :: post /\ arg_retrieved a = false /\
     Forall (fun p => arg_retrieved (snd p) = true) pre /\
     filterx_function_args_check c = CheckFailed (unexpected_argument_error x)) /\
  (forall x0 a0, In (x0, a0) (named_args c) -> arg_retrieved a0 = false ->
   (forall y b, In (y, b) (named_args c) -> arg_retrieved b = false -> y = x0) ->
   filterx_function_args_check c = CheckFailed (unexpected_argument_error x0)).
Proof.
  intros Hpos. unfold filterx_function_args_check. rewrite Hpos.
  split; [apply check_named_ok|]. split; [apply check_named_first|].
  intros x0 a0 Hin Ha0 Huniq.
  destruct (check_named_first (named_args c) (ex_intro _ x0 (ex_intro _ a0 (conj Hin Ha0))))
    as (pre & x & a & post & Ht & Ha & _ & Hc).
  rewrite Hc. f_equal. f_equal. apply (Huniq x a); [|exact Ha].
  rewrite Ht. apply in_or_app. right. left. reflexivity.
Qed.

(** C2: witness of [args_check_named]. *)
Lemma args_check_named_witness :
  forallb arg_retrieved (positional_args one_unretrieved) = true /\
  filterx_function_args_check one_unretrieved = CheckFailed (unexpected_argument_error "b").
Proof.
  split; [reflexivity|].
  apply (proj2 (proj2 (args_check_named one_unretrieved eq_refl)) "b" (na "b" (ENonLiteral 2))).
  - right. left. reflexivity.
  - reflexivity.
  - intros y b Hin Hb. destruct Hin as [E|[E|[]]]; inversion E; subst; [discriminate|reflexivity].
Defined.

(** C2: with two unretrieved named arguments "a" and "b", check names only
    "a": the claim fails for the unretrieved argument "b". *)
Lemma args_check_named_counterexample :
  ~ (forall c x a, forallb arg_retrieved (positional_args c) = true ->
                   In (x, a) (named_args c) -> arg_retrieved a = false ->
                   filterx_function_args_check c = CheckFailed (unexpected_argument_error x)).
Proof.
  intros H.
  specialize (H two_unretrieved "b" (na "b" (ENonLiteral 1)) eq_refl
                (or_intror (or_introl eq_refl)) eq_refl).
  vm_compute in H. discriminate.
Qed.

(** C3.  A positional argument that was never retrieved makes check fail
    its assertion (the process aborts), and when every positional argument
    has been retrieved, check never takes that branch. *)
Theorem args_check_positional_assert (c : FilterXFunctionArgs) :
  ((exists a, In a (positional_args c) /\ arg_retrieved a = false) ->
   filterx_function_args_check c = CheckAbort) /\
  (forallb arg_retrieved (positional_args c) = true ->
   filterx_function_args_check c <> CheckAbort).
Proof.
  unfold filterx_function_args_check. split.
  - intros (a & Hin & Ha).
    destruct (forallb arg_retrieved (positional_args c)) eqn:E; [|reflexivity].
    rewrite forallb_forall in E. rewrite (E a Hin) in Ha. discriminate.
  - intros ->. apply check_named_never_aborts.
Qed.

(** C3: witness of [args_check_positional_assert]. *)
Lemma args_check_positional_assert_witness :
  filterx_function_args_check (mkArgs [pa (ENonLiteral 0)] []) = CheckAbort /\
  filterx_function_args_check one_unretrieved <> CheckAbort.
Proof.
  split.
  - apply (proj1 (args_check_positional_assert (mkArgs [pa (ENonLiteral 0)] []))).
    exists (pa (ENonLiteral 0)). split; [left; reflexivity|reflexivity].
  - apply (proj2 (args_check_positional_assert one_unretrieved)). reflexivity.
Defined.

(** ** Claims on literal extraction *)

Lemma get_named_expr_found n s a :
  ht_lookup n (named_args (st_args s)) = Some a ->
  filterx_function_args_get_named_expr n s =
  (Ok (Some (arg_value a)),
   mkSt (mkArgs (positional_args (st_args s)) (ht_mark n (named_args (st_args s)))) (st_trace s)).
Proof.
  intros H. unfold filterx_function_args_get_named_expr, bind, gets, put_args, ret, id. simpl.
  rewrite H. reflexivity.
Qed.

Lemma get_named_expr_absent n s :
  ht_lookup n (named_args (st_args s)) = None ->
  filterx_function_args_get_named_expr n s = (Ok None, s).
Proof.
  intros H. unfold filterx_function_args_get_named_expr, bind, gets, ret, id. simpl.
  rewrite H. reflexivity.
Qed.

Lemma get_expr_found i s a :
  nth_error (positional_args (st_args s)) i = Some a ->
  filterx_function_args_get_expr i s =
  (Ok (Some (arg_value a)),
   mkSt (mkArgs (set_nth_retrieved i (positional_args (st_args s))) (named_args (st_args s)))
        (st_trace s)).
Proof.
  intros H. unfold filterx_function_args_get_expr, bind, gets, put_args, ret, id. simpl.
  assert (Hlt : i < length (positional_args (st_args s))).
  { apply nth_error_Some. rewrite H. discriminate. }
  destruct (Nat.leb_spec (length (positional_args (st_args s))) i); [lia|].
  rewrite H. reflexivity.
Qed.

Lemma get_expr_absent i s :
  nth_error (positional_args (st_args s)) i = None ->
  filterx_function_args_get_expr i s = (Ok None, s).
Proof.
  intros H. unfold filterx_function_args_get_expr, bind, gets, ret, id. simpl.
  apply nth_error_None in H.
  destruct (Nat.leb_spec (length (positional_args (st_args s))) i); [reflexivity|lia].
Qed.

(** C8.  [get_named_literal_integer "n"]: an integer literal 42 gives
    (42, exists, no error); a floating-point literal (such as 3.14) gives
    an error (value 0, exists); an absent "n" gives (0, not exists, no
    error). *)
Theorem get_named_literal_integer_cases (env : Env) (s : St) :
  (forall a, ht_lookup "n" (named_args (st_args s)) = Some a ->
             arg_value a = ELiteral (OInteger 42) ->
             fst (filterx_function_args_get_named_literal_integer env "n" s) = Ok (42%Z, true, false)) /\
  (forall a q, ht_lookup "n" (named_args (st_args s)) = Some a ->
               arg_value a = ELiteral (ODouble q) ->
               fst (filterx_function_args_get_named_literal_integer env "n" s) = Ok (0%Z, true, true)) /\
  (ht_lookup "n" (named_args (st_args s)) = None ->
   fst (filterx_function_args_get_named_literal_integer env "n" s) = Ok (0%Z, false, false)).
Proof.
  unfold filterx_function_args_get_named_literal_integer,
    filterx_function_args_get_named_literal_generic_number.
  repeat split.
  - intros a Hl Ha. unfold bind at 1 2. rewrite (get_named_expr_found _ _ _ Hl), Ha. reflexivity.
  - intros a q Hl Ha. unfold bind at 1 2. rewrite (get_named_expr_found _ _ _ Hl), Ha. reflexivity.
  - intros Hl. unfold bind at 1 2. rewrite (get_named_expr_absent _ _ Hl). reflexivity.
Qed.

(** C8: witness of [get_named_literal_integer_cases]. *)
Lemma get_named_literal_integer_cases_witness :
  fst (filterx_function_args_get_named_literal_integer (fun _ => None) "n"
         (n_table (ELiteral (OInteger 42)))) = Ok (42%Z, true, false) /\
  fst (filterx_function_args_get_named_literal_integer (fun _ => None) "n"
         (n_table (ELiteral (ODouble (314 # 100)%Q)))) = Ok (0%Z, true, true) /\
  fst (filterx_function_args_get_named_literal_integer (fun _ => None) "n"
         (mkSt (mkArgs [] []) [])) = Ok (0%Z, false, false).
Proof.
  split; [|split].
  - apply (proj1 (get_named_literal_integer_cases (fun _ => None) (n_table (ELiteral (OInteger 42))))
             (na "n" (ELiteral (OInteger 42)))); reflexivity.
  - apply (proj1 (proj2 (get_named_literal_integer_cases (fun _ => None)
                           (n_table (ELiteral (ODouble (314 # 100)%Q)))))
             (na "n" (ELiteral (ODouble (314 # 100)%Q))) (314 # 100)%Q); reflexivity.
  - apply (proj2 (proj2 (get_named_literal_integer_cases (fun _ => None) (mkSt (mkArgs [] []) []))));
      reflexivity.
Defined.

(** C9.  [get_literal_string 0]: a string literal "hello" at position 0
    gives ("hello", 5); a non-literal expression at position 0 gives no
    value, and is not evaluated (nothing is added to the evaluation trace). *)
Theorem get_literal_string_cases (env : Env) (s : St) (a : FilterXFunctionArg) :
  nth_error (positional_args (st_args s)) 0 = Some a ->
  (arg_value a = ELiteral (OString "hello") ->
   fst (filterx_function_args_get_literal_string env 0 s) = Ok (Some ("hello", 5))) /\
  (filterx_expr_is_literal (arg_value a) = false ->
   fst (filterx_function_args_get_literal_string env 0 s) = Ok None /\
   st_trace (snd (filterx_function_args_get_literal_string env 0 s)) = st_trace s).
Proof.
  intros H. unfold filterx_function_args_get_literal_string, bind.
  rewrite !(get_expr_found _ _ _ H). split.
  - intros Ha. rewrite Ha. reflexivity.
  - intros Ha. destruct (arg_value a); [discriminate|]. split; reflexivity.
Qed.

(** C9: witness of [get_literal_string_cases]. *)
Lemma get_literal_string_cases_witness :
  fst (filterx_function_args_get_literal_string (fun _ => Some (OString "x")) 0
         (mkSt (mkArgs [pa (ELiteral (OString "hello"))] []) [])) = Ok (Some ("hello", 5)) /\
  fst (filterx_function_args_get_literal_string (fun _ => Some (OString "x")) 0
         (mkSt (mkArgs [pa (ENonLiteral 7)] []) [])) = Ok None.
Proof.
  split.
  - apply (proj1 (get_literal_string_cases (fun _ => Some (OString "x"))
                    (mkSt (mkArgs [pa (ELiteral (OString "hello"))] []) [])
                    (pa (ELiteral (OString "hello"))) eq_refl)). reflexivity.
  - apply (proj2 (get_literal_string_cases (fun _ => Some (OString "x"))
                    (mkSt (mkArgs [pa (ENonLiteral 7)] []) [])
                    (pa (ENonLiteral 7)) eq_refl)). reflexivity.
Defined.

(** ** The argument-evaluation loop *)

Lemma set_nth_retrieved_values i l : map arg_value (set_nth_retrieved i l) = map arg_value l.
Proof.
  revert i; induction l as [|a l IH]; intros [|i]; simpl; f_equal; auto.
Qed.

Lemma set_nth_retrieved_length i l : length (set_nth_retrieved i l) = length l.
Proof. rewrite <- (length_map arg_value), set_nth_retrieved_values. apply length_map. Qed.

Lemma nth_error_set_nth_retrieved i j l :
  nth_error (set_nth_retrieved i l) j =
  if Nat.eqb i j then option_map set_retrieved (nth_error l j) else nth_error l j.
Proof.
  revert i j; induction l as [|a l IH]; intros [|i] [|j]; simpl; auto.
  destruct (Nat.eqb i j); reflexivity.
Qed.

Lemma get_object_run env i s :
  i < length (positional_args (st_args s)) ->
  filterx_function_args_get_object env i s =
  (Ok (expr_value env (pos_value s i)),
   mkSt (mkArgs (set_nth_retrieved i (positional_args (st_args s))) (named_args (st_args s)))
        (st_trace s ++ [EEval (pos_value s i)])).
Proof.
  intros Hi. destruct (nth_error (positional_args (st_args s)) i) as [a|] eqn:Ha.
  - unfold filterx_function_args_get_object, bind at 1. rewrite (get_expr_found _ _ _ Ha).
    unfold pos_value. rewrite (nth_error_nth _ _ (ENonLiteral 0) (map_nth_error arg_value _ _ Ha)).
    reflexivity.
  - apply nth_error_None in Ha. lia.
Qed.

Lemma eval_args_loop_run env idxs : forall res s,
  Forall (fun i => i < length (positional_args (st_args s))) idxs ->
  exists s',
    eval_args_loop env idxs res s =
      (Ok (option_map (app res) (snd (eval_prefix env (map (pos_value s) idxs)))), s') /\
    st_trace s' = st_trace s ++ map EEval (fst (eval_prefix env (map (pos_value s) idxs))) /\
    named_args (st_args s') = named_args (st_args s) /\
    (snd (eval_prefix env (map (pos_value s) idxs)) <> None ->
     positional_args (st_args s') = mark_all idxs (positional_args (st_args s))).
Proof.
  induction idxs as [|i idxs IH]; intros res s Hall.
  - exists s. simpl. rewrite !app_nil_r. repeat split; auto.
  - inversion Hall as [|? ? Hi Hall']; subst. simpl.
    unfold bind at 1. rewrite (get_object_run env i s Hi).
    destruct (expr_value env (pos_value s i)) as [o|] eqn:Ho.
    + set (s1 := mkSt (mkArgs (set_nth_retrieved i (positional_args (st_args s)))
                              (named_args (st_args s)))
                      (st_trace s ++ [EEval (pos_value s i)])).
      assert (Hv : map (pos_value s1) idxs = map (pos_value s) idxs).
      { apply map_ext. intros j. unfold pos_value, s1. simpl.
        rewrite set_nth_retrieved_values. reflexivity. }
      assert (Hall1 : Forall (fun i => i < length (positional_args (st_args s1))) idxs).
      { unfold s1. simpl. rewrite set_nth_retrieved_length. exact Hall'. }
      destruct (IH (res ++ [o]) s1 Hall1) as (s' & Hrun & Htr & Hnm & Hpos).
      rewrite Hv in Hrun, Htr, Hpos.
      exists s'. rewrite Hrun.
      destruct (eval_prefix env (map (pos_value s) idxs)) as [ev r] eqn:Hep. simpl in *.
      repeat split.
      * destruct r; simpl; [rewrite <- app_assoc|]; reflexivity.
      * rewrite Htr. unfold s1. simpl. rewrite <- app_assoc. reflexivity.
      * rewrite Hnm. reflexivity.
      * intros Hr. destruct r as [l|]; [|contradiction]. rewrite Hpos by discriminate.
        reflexivity.
    + exists (mkSt (mkArgs (set_nth_retrieved i (positional_args (st_args s)))
                           (named_args (st_args s)))
                   (st_trace s ++ [EEval (pos_value s i)])).
      simpl. repeat split. intros H; contradiction.
Qed.

Lemma mark_all_retrieved idxs : forall l j,
  (In j idxs \/ forall a, nth_error l j = Some a -> arg_retrieved a = true) ->
  forall a, nth_error (mark_all idxs l) j = Some a -> arg_retrieved a = true.
Proof.
  unfold mark_all. induction idxs as [|i idxs IH]; intros l j H; simpl.
  - destruct H as [[]|H]; exact H.
  - apply IH. destruct H as [[<-|Hin]|H]; [right|left; exact Hin|right].
    + intros a. rewrite nth_error_set_nth_retrieved, Nat.eqb_refl.
      destruct (nth_error l i); simpl; intros E; inversion E; reflexivity.
    + intros a. rewrite nth_error_set_nth_retrieved.
      destruct (Nat.eqb i j); [|apply H].
      destruct (nth_error l j); simpl; intros E; inversion E; reflexivity.
Qed.

Lemma mark_all_length idxs : forall l, length (mark_all idxs l) = length l.
Proof.
  unfold mark_all. induction idxs as [|i idxs IH]; intros l; simpl; [reflexivity|].
  rewrite IH. apply set_nth_retrieved_length.
Qed.

Lemma mark_all_seq_all l : forallb arg_retrieved (mark_all (seq 0 (length l)) l) = true.
Proof.
  apply forallb_forall. intros a Hin. apply In_nth_error in Hin as [j Hj].
  apply (mark_all_retrieved (seq 0 (length l)) l j); [left|exact Hj].
  apply in_seq. split; [lia|].
  rewrite <- (mark_all_length (seq 0 (length l)) l). apply nth_error_Some. rewrite Hj. discriminate.
Qed.

Lemma map_nth_seq_length {A} (d : A) l : map (fun i => nth i l d) (seq 0 (length l)) = l.
Proof.
  induction l as [|x l IH]; simpl; [reflexivity|]. f_equal.
  rewrite <- seq_shift, map_map. exact IH.
Qed.

Lemma pos_value_seq s :
  map (pos_value s) (seq 0 (length (positional_args (st_args s)))) =
  map arg_value (positional_args (st_args s)).
Proof.
  unfold pos_value. rewrite <- (length_map arg_value (positional_args (st_args s))).
  apply map_nth_seq_length.
Qed.

(** ** Runs of the simple-function wrapper *)

Lemma simple_eval_empty_run env fname f s :
  filterx_function_args_empty (st_args s) = true ->
  _simple_eval env fname f s =
  (Ok (f None), mkSt (st_args s) (st_trace s ++ [ENative None])).
Proof.
  intros He. unfold _simple_eval, bind, gets. rewrite He. reflexivity.
Qed.

Lemma simple_eval_nonempty_run env fname f s :
  filterx_function_args_empty (st_args s) = false ->
  match eval_prefix env (map arg_value (positional_args (st_args s))) with
  | (ev, None) =>
      fst (_simple_eval env fname f s) = Ok None /\
      st_trace (snd (_simple_eval env fname f s)) = st_trace s ++ map EEval ev
  | (ev, Some objs) =>
      match check_named (named_args (st_args s)) with
      | CheckOk =>
          fst (_simple_eval env fname f s) = Ok (f (Some objs)) /\
          st_trace (snd (_simple_eval env fname f s)) =
            st_trace s ++ map EEval ev ++ [ECheck; ENative (Some objs)]
      | CheckFailed e =>
          fst (_simple_eval env fname f s) = Ok None /\
          st_trace (snd (_simple_eval env fname f s)) =
            st_trace s ++ map EEval ev ++ [ECheck; EArgError fname (err_message e)]
      | CheckAbort => False
      end
  end.
Proof.
  intros He.
  assert (Hall : Forall (fun i => i < length (positional_args (st_args s)))
                        (seq 0 (length (positional_args (st_args s))))).
  { apply Forall_forall. intros i Hi. apply in_seq in Hi. lia. }
  destruct (eval_args_loop_run env _ [] s Hall) as (s' & Hrun & Htr & Hnm & Hpos).
  rewrite pos_value_seq in Hrun, Htr, Hpos.
  unfold _simple_eval, _simple_function_eval_args, bind, gets. rewrite He. simpl.
  unfold filterx_function_args_len. rewrite Hrun.
  destruct (eval_prefix env (map arg_value (positional_args (st_args s)))) as [ev [objs|]];
    simpl in *; [|split; [reflexivity|exact Htr]].
  specialize (Hpos ltac:(discriminate)).
  assert (Hck : filterx_function_args_check (st_args s') = check_named (named_args (st_args s))).
  { unfold filterx_function_args_check. rewrite Hpos, mark_all_seq_all, Hnm. reflexivity. }
  unfold run_args_check, bind, gets, emit, id. simpl. rewrite Hck.
  destruct (check_named (named_args (st_args s))) as [|e|] eqn:Hc.
  - simpl. rewrite Htr, <- !app_assoc. split; reflexivity.
  - simpl. rewrite Htr, <- !app_assoc. split; reflexivity.
  - apply (check_named_never_aborts _ Hc).
Qed.

Lemma eval_prefix_all env P objs :
  Forall2 (fun a o => expr_value env (arg_value a) = Some o) P objs ->
  eval_prefix env (map arg_value P) = (map arg_value P, Some objs).
Proof.
  induction 1 as [|a o P objs Ho _ IH]; simpl; [reflexivity|].
  rewrite Ho, IH. reflexivity.
Qed.

Lemma eval_prefix_fail env vals k :
  k < length vals ->
  (forall j, j < k -> exists o, expr_value env (nth j vals (ENonLiteral 0)) = Some o) ->
  expr_value env (nth k vals (ENonLiteral 0)) = None ->
  eval_prefix env vals = (firstn (S k) vals, None).
Proof.
  revert k; induction vals as [|e vals IH]; intros k Hk Hpre Hk'; simpl in *; [lia|].
  destruct k as [|k].
  - rewrite Hk'. reflexivity.
  - destruct (Hpre 0 ltac:(lia)) as [o Ho]. simpl in Ho. rewrite Ho.
    rewrite (IH k); [reflexivity|lia| |exact Hk'].
    intros j Hj. apply (Hpre (S j)). lia.
Qed.

Lemma eval_prefix_exists_fail env P :
  Exists (fun a => expr_value env (arg_value a) = None) P ->
  snd (eval_prefix env (map arg_value P)) = None.
Proof.
  induction 1 as [a P Ha|a P _ IH]; simpl.
  - rewrite Ha. reflexivity.
  - destruct (expr_value env (arg_value a)); [|reflexivity].
    destruct (eval_prefix env (map arg_value P)) as [ev r]. simpl in *. rewrite IH. reflexivity.
Qed.

Lemma eval_prefix_forall_ok env P :
  Forall (fun a => expr_value env (arg_value a) <> None) P ->
  exists objs, eval_prefix env (map arg_value P) = (map arg_value P, Some objs).
Proof.
  induction 1 as [|a P Ha _ [objs IH]]; simpl; [exists []; reflexivity|].
  destruct (expr_value env (arg_value a)) as [o|]; [|contradiction].
  rewrite IH. exists (o :: objs). reflexivity.
Qed.

Lemma forallb_map_set_retrieved l : forallb arg_retrieved (map set_retrieved l) = true.
Proof. induction l; simpl; auto. Qed.

(** ** Claims on the simple-function wrapper *)

(** C6.  Evaluating a simple function whose container is not empty: the
    positional arguments are evaluated in order; at the first one that
    fails, evaluation stops with NULL, without running check or the native
    function.  When all succeed, check runs on the container (all
    positional arguments now retrieved); a failure pushes an argument error
    carrying the function's (display) name and yields NULL without calling
    the native function; otherwise the native function is called with the
    array of values and its result is returned unchanged. *)
Theorem simple_eval_protocol (env : Env) (name : string) (f : FilterXSimpleFunctionProto) (s : St) :
  filterx_function_args_empty (st_args s) = false ->
  let vals := map arg_value (positional_args (st_args s)) in
  let checked := mkArgs (map set_retrieved (positional_args (st_args s))) (named_args (st_args s)) in
  (forall k, k < length vals ->
     (forall j, j < k -> exists o, expr_value env (nth j vals (ENonLiteral 0)) = Some o) ->
     expr_value env (nth k vals (ENonLiteral 0)) = None ->
     fst (_simple_eval env (display_name name) f s) = Ok None /\
     st_trace (snd (_simple_eval env (display_name name) f s)) = st_trace s ++ map EEval (firstn (S k) vals)) /\
  (forall objs,
     Forall2 (fun a o => expr_value env (arg_value a) = Some o) (positional_args (st_args s)) objs ->
     (filterx_function_args_check checked = CheckOk ->
        fst (_simple_eval env (display_name name) f s) = Ok (f (Some objs)) /\
        st_trace (snd (_simple_eval env (display_name name) f s)) =
          st_trace s ++ map EEval vals ++ [ECheck; ENative (Some objs)]) /\
     (forall e, filterx_function_args_check checked = CheckFailed e ->
        fst (_simple_eval env (display_name name) f s) = Ok None /\
        st_trace (snd (_simple_eval env (display_name name) f s)) =
          st_trace s ++ map EEval vals ++ [ECheck; EArgError (display_name name) (err_message e)])).
Proof.
  intros He. cbv zeta.
  pose proof (simple_eval_nonempty_run env (display_name name) f s He) as Hrun.
  assert (Hck : filterx_function_args_check
                  (mkArgs (map set_retrieved (positional_args (st_args s))) (named_args (st_args s)))
                = check_named (named_args (st_args s))).
  { unfold filterx_function_args_check. simpl. rewrite forallb_map_set_retrieved.
    reflexivity. }
  rewrite Hck. split.
  - intros k Hk Hpre Hfail. rewrite (eval_prefix_fail env _ k Hk Hpre Hfail) in Hrun.
    exact Hrun.
  - intros objs Hobjs. rewrite (eval_prefix_all env _ objs Hobjs) in Hrun. split.
    + intros Hc. rewrite Hc in Hrun. exact Hrun.
    + intros e Hc. rewrite Hc in Hrun. exact Hrun.
Qed.

(** C6: witness of [simple_eval_protocol]. *)
Lemma simple_eval_protocol_witness :
  fst (_simple_eval (fun _ => None) (display_name "f") (fun _ => Some ONull) one_positional) = Ok (Some ONull) /\
  st_trace (snd (_simple_eval (fun _ => None) (display_name "f") (fun _ => Some ONull) one_positional)) =
    [EEval (ELiteral (OInteger 1)); ECheck; ENative (Some [OInteger 1])].
Proof.
  apply (proj1 (proj2 (simple_eval_protocol (fun _ => None) "f" (fun _ => Some ONull)
                         one_positional eq_refl) [OInteger 1]
                  (Forall2_cons (pa (ELiteral (OInteger 1))) (OInteger 1) eq_refl (Forall2_nil _)))).
  reflexivity.
Defined.

Lemma check_count_evals es : check_count (map EEval es) = 0.
Proof. induction es; simpl; auto. Qed.

(** C7 (corrected).  Each evaluation of a simple function runs check at
    most once.  With a non-empty container whose positional arguments all
    evaluate, check runs exactly once, after every argument evaluation and
    before the native function is called or an argument error is
    reported.  With an empty container, or when a positional argument fails
    to evaluate, check is not run at all; with an empty container the
    native function is called directly with no argument array (NULL) and
    its result is returned. *)
Theorem simple_eval_check_at_most_once (env : Env) (fname : string) (f : FilterXSimpleFunctionProto) (s : St) :
  exists new,
    st_trace (snd (_simple_eval env fname f s)) = st_trace s ++ new /\
    (filterx_function_args_empty (st_args s) = true ->
       new = [ENative None] /\ check_count new = 0 /\ fst (_simple_eval env fname f s) = Ok (f None)) /\
    (filterx_function_args_empty (st_args s) = false ->
       Exists (fun a => expr_value env (arg_value a) = None) (positional_args (st_args s)) ->
       check_count new = 0) /\
    (filterx_function_args_empty (st_args s) = false ->
       Forall (fun a => expr_value env (arg_value a) <> None) (positional_args (st_args s)) ->
       exists rest,
         new = map EEval (map arg_value (positional_args (st_args s))) ++ ECheck :: rest /\
         check_count rest = 0 /\ existsb is_eval rest = false /\
         ((exists objs, rest = [ENative (Some objs)]) \/ (exists msg, rest = [EArgError fname msg]))).
Proof.
  destruct (filterx_function_args_empty (st_args s)) eqn:He.
  - exists [ENative None]. rewrite (simple_eval_empty_run env fname f s He).
    repeat split; intros; discriminate || reflexivity.
  - pose proof (simple_eval_nonempty_run env fname f s He) as Hrun.
    destruct (eval_prefix env (map arg_value (positional_args (st_args s)))) as [ev [objs|]] eqn:Hep.
    + assert (Hfail : Exists (fun a => expr_value env (arg_value a) = None)
                             (positional_args (st_args s)) -> False).
      { intros Hex. apply eval_prefix_exists_fail in Hex. rewrite Hep in Hex. discriminate. }
      assert (Hev : Forall (fun a => expr_value env (arg_value a) <> None)
                           (positional_args (st_args s)) ->
                    ev = map arg_value (positional_args (st_args s))).
      { intros Hall. destruct (eval_prefix_forall_ok env _ Hall) as [objs' Hok].
        rewrite Hok in Hep. inversion Hep. reflexivity. }
      destruct (check_named (named_args (st_args s))) as [|e|]; [| |contradiction];
        destruct Hrun as [_ Ht].
      * exists (map EEval ev ++ [ECheck; ENative (Some objs)]). split; [exact Ht|].
        split; [discriminate|]. split; [intros _ Hex; destruct (Hfail Hex)|].
        intros _ Hall. rewrite (Hev Hall). exists [ENative (Some objs)].
        repeat split. left. exists objs. reflexivity.
      * exists (map EEval ev ++ [ECheck; EArgError fname (err_message e)]). split; [exact Ht|].
        split; [discriminate|]. split; [intros _ Hex; destruct (Hfail Hex)|].
        intros _ Hall. rewrite (Hev Hall). exists [EArgError fname (err_message e)].
        repeat split. right. exists (err_message e). reflexivity.
    + destruct Hrun as [_ Ht]. exists (map EEval ev). split; [exact Ht|].
      split; [discriminate|]. split; [intros; apply check_count_evals|].
      intros _ Hall. destruct (eval_prefix_forall_ok env _ Hall) as [objs' Hok].
      rewrite Hok in Hep. discriminate.
Qed.

(** C7: an evaluation of a simple function with an empty container never
    runs check. *)
Lemma simple_eval_empty_no_check_counterexample :
  check_count (st_trace (snd (_simple_eval (fun _ => None) "f()" (fun _ => Some ONull)
                                (mkSt (mkArgs [] []) [])))) = 0.
Proof. reflexivity. Qed.

(** C7: witness of [simple_eval_check_at_most_once]. *)
Lemma simple_eval_check_at_most_once_witness :
  exists new,
    st_trace (snd (_simple_eval (fun _ => None) "f()" (fun _ => Some ONull) one_positional)) = [] ++ new /\
    exists rest,
      new = map EEval (map arg_value (positional_args (st_args one_positional))) ++ ECheck :: rest /\
      check_count rest = 0 /\ existsb is_eval rest = false /\
      ((exists objs, rest = [ENative (Some objs)]) \/ (exists msg, rest = [EArgError "f()" msg])).
Proof.
  destruct (simple_eval_check_at_most_once (fun _ => None) "f()" (fun _ => Some ONull) one_positional)
    as (new & Ht & _ & _ & H4).
  exists new. split; [exact Ht|]. apply H4; [reflexivity|].
  constructor; [discriminate|constructor].
Defined.

(** ** Retrieval marks its target *)

Lemma ret_preserves {A} (a : A) : preserves_args (ret a).
Proof. intros s. reflexivity. Qed.

Lemma emit_preserves ev : preserves_args (emit ev).
Proof. intros s. reflexivity. Qed.

Lemma gets_preserves {A} (g : FilterXFunctionArgs -> A) : preserves_args (gets g).
Proof. intros s. reflexivity. Qed.

Lemma bind_preserves {A B} (m : M A) (k : A -> M B) :
  preserves_args m -> (forall a, preserves_args (k a)) -> preserves_args (bind m k).
Proof.
  intros Hm Hk s. unfold bind. specialize (Hm s).
  destruct (m s) as [[a|] s']; simpl in *; [rewrite Hk|]; exact Hm.
Qed.

Lemma bind_args_after {A B} (m : M A) (k : A -> M B) s :
  (forall a, preserves_args (k a)) -> st_args (snd (bind m k s)) = st_args (snd (m s)).
Proof.
  intros Hk. unfold bind. destruct (m s) as [[a|] s']; simpl; [apply Hk|reflexivity].
Qed.

Create HintDb preserves.
#[local] Hint Resolve ret_preserves emit_preserves gets_preserves : preserves.

Ltac solve_preserves :=
  repeat (intros ||
          match goal with
          | |- preserves_args (bind _ _) => apply bind_preserves
          | |- preserves_args (match ?x with _ => _ end) => destruct x
          | |- preserves_args (if ?b then _ else _) => destruct b
          | |- preserves_args (filterx_expr_eval _ _) => unfold filterx_expr_eval
          | |- preserves_args (_get_literal_string_from_expr _ _) =>
              unfold _get_literal_string_from_expr
          | |- preserves_args (fun s => (Abort, s)) => intros ?; reflexivity
          end);
  auto with preserves.

Lemma run_retrieval_args env r s :
  st_args (snd (run_retrieval env r s)) = st_args (snd (retrieval_access r s)).
Proof.
  destruct r; simpl; rewrite bind_args_after by solve_preserves;
    unfold filterx_function_args_get_object, filterx_function_args_get_literal_string,
      filterx_function_args_is_literal_null, filterx_function_args_get_named_object,
      filterx_function_args_get_named_literal_object, filterx_function_args_get_named_literal_string,
      filterx_function_args_get_named_literal_boolean, filterx_function_args_get_named_literal_integer,
      filterx_function_args_get_named_literal_double;
    repeat (rewrite bind_args_after by solve_preserves);
    try reflexivity;
    unfold filterx_function_args_get_named_literal_generic_number;
    rewrite bind_args_after by solve_preserves; reflexivity.
Qed.

Lemma ht_lookup_mark n m t :
  ht_lookup n (ht_mark m t) =
  if String.eqb n m then option_map set_retrieved (ht_lookup n t) else ht_lookup n t.
Proof.
  induction t as [|[k v] t IH]; simpl.
  - destruct (String.eqb n m); reflexivity.
  - destruct (String.eqb m k) eqn:Emk; simpl.
    + apply String.eqb_eq in Emk; subst k.
      destruct (String.eqb n m); reflexivity.
    + rewrite IH. destruct (String.eqb n k) eqn:Enk; [|reflexivity].
      apply String.eqb_eq in Enk; subst k.
      destruct (String.eqb n m) eqn:Enm; [|reflexivity].
      apply String.eqb_eq in Enm; subst. rewrite String.eqb_refl in Emk. discriminate.
Qed.

Lemma ht_mark_keys m t : map fst (ht_mark m t) = map fst t.
Proof.
  induction t as [|[k v] t IH]; simpl; [reflexivity|].
  destruct (String.eqb m k); simpl; [|rewrite IH]; reflexivity.
Qed.

Lemma ht_lookup_in_nodup x b t :
  NoDup (map fst t) -> In (x, b) t -> ht_lookup x t = Some b.
Proof.
  induction t as [|[k v] t IH]; simpl; intros Hnd Hin; [contradiction|].
  inversion Hnd as [|? ? Hnin Hnd']; subst.
  destruct Hin as [E|Hin].
  - inversion E; subst. rewrite String.eqb_refl. reflexivity.
  - destruct (String.eqb x k) eqn:E; [|apply IH; assumption].
    apply String.eqb_eq in E; subst k. exfalso. apply Hnin.
    apply (in_map fst _ _ Hin).
Qed.

Lemma check_named_failed t e :
  check_named t = CheckFailed e ->
  exists x b, In (x, b) t /\ arg_retrieved b = false /\ e = unexpected_argument_error x.
Proof.
  induction t as [|[k v] t IH]; simpl; intros H; [discriminate|].
  destruct (arg_retrieved v) eqn:Ev.
  - destruct (IH H) as (x & b & Hin & Hb & ->). exists x, b. auto.
  - inversion H. exists k, v. auto.
Qed.

Lemma string_app_dq_inj x y : (x ++ dq)%string = (y ++ dq)%string -> x = y.
Proof.
  revert y; induction x as [|c x IH]; intros [|c' y]; simpl; intros H; auto.
  - inversion H as [[E1 E2]]. destruct y; discriminate.
  - inversion H as [[E1 E2]]. destruct x; discriminate.
  - inversion H. f_equal. auto.
Qed.

Lemma unexpected_argument_error_inj x y :
  unexpected_argument_error x = unexpected_argument_error y -> x = y.
Proof.
  unfold unexpected_argument_error. intros H. inversion H as [E].
  apply string_app_dq_inj. exact E.
Qed.

Lemma named_retrieved_check n args :
  named_retrieved n args -> filterx_function_args_check args <> CheckFailed (unexpected_argument_error n).
Proof.
  intros [Hnd (b & Hb & Hr)] Hc. unfold filterx_function_args_check in Hc.
  destruct (forallb arg_retrieved (positional_args args)); [|discriminate].
  destruct (check_named_failed _ _ Hc) as (x & b' & Hin & Hb' & He).
  apply unexpected_argument_error_inj in He. subst x.
  rewrite (ht_lookup_in_nodup _ _ _ Hnd Hin) in Hb. inversion Hb. subst. congruence.
Qed.

Lemma retrieval_access_args r s :
  st_args (snd (retrieval_access r s)) = st_args s \/
  (exists i, st_args (snd (retrieval_access r s)) =
             mkArgs (set_nth_retrieved i (positional_args (st_args s))) (named_args (st_args s))) \/
  (exists m, st_args (snd (retrieval_access r s)) =
             mkArgs (positional_args (st_args s)) (ht_mark m (named_args (st_args s)))).
Proof.
  destruct r; simpl;
    lazymatch goal with
    | |- context [filterx_function_args_get_expr ?i s] =>
        destruct (nth_error (positional_args (st_args s)) i) as [a|] eqn:Ha;
        [rewrite (get_expr_found _ _ _ Ha); right; left; exists i; reflexivity
        |rewrite (get_expr_absent _ _ Ha); left; reflexivity]
    | |- context [filterx_function_args_get_named_expr ?n s] =>
        destruct (ht_lookup n (named_args (st_args s))) as [a|] eqn:Ha;
        [rewrite (get_named_expr_found _ _ _ Ha); right; right; exists n; reflexivity
        |rewrite (get_named_expr_absent _ _ Ha); left; reflexivity]
    end.
Qed.

Lemma named_retrieved_step n env r s :
  named_retrieved n (st_args s) -> named_retrieved n (st_args (snd (run_retrieval env r s))).
Proof.
  rewrite run_retrieval_args. intros [Hnd (b & Hb & Hr)].
  destruct (retrieval_access_args r s) as [->|[[i ->]|[m ->]]].
  - split; [exact Hnd|]. exists b. auto.
  - split; [exact Hnd|]. exists b. auto.
  - unfold named_retrieved. simpl. rewrite ht_mark_keys, ht_lookup_mark. split; [exact Hnd|].
    rewrite Hb. destruct (String.eqb n m); [exists (set_retrieved b)|exists b]; auto.
Qed.

Lemma named_retrieved_steps n env rs : forall s,
  named_retrieved n (st_args s) -> named_retrieved n (st_args (snd (run_retrievals env rs s))).
Proof.
  induction rs as [|r rs IH]; intros s H; simpl; [exact H|].
  unfold bind. pose proof (named_retrieved_step n env r s H) as H1.
  destruct (run_retrieval env r s) as [[u|] s']; simpl in *; [apply IH|]; exact H1.
Qed.

Lemma retrieval_access_target r s a :
  retrieval_target (st_args s) r = Some a ->
  retrieval_target (st_args (snd (retrieval_access r s))) r = Some (set_retrieved a).
Proof.
  destruct r; simpl; intros Ha;
    first [ rewrite (get_expr_found _ _ _ Ha); simpl;
            rewrite nth_error_set_nth_retrieved, Nat.eqb_refl, Ha; reflexivity
          | rewrite (get_named_expr_found _ _ _ Ha); simpl;
            rewrite ht_lookup_mark, String.eqb_refl, Ha; reflexivity ].
Qed.

(** ** Claim on retrieval tracking *)

(** C10.  Every retrieval entry point (by index or by name: expression,
    value, literal string, literal-null test, typed literal) marks its
    target argument retrieved whenever that argument exists, whatever it
    returns and for every evaluation environment.  Consequently, in a
    named table with unique keys (as [filterx_function_args_new] builds
    it), a named argument probed by any retrieval never makes a later
    check, after any further retrievals, report it as unexpected. *)
Theorem retrieval_marks_target (env : Env) (r : Retrieval) (s : St) (a : FilterXFunctionArg) :
  retrieval_target (st_args s) r = Some a ->
  retrieval_target (st_args (snd (run_retrieval env r s))) r = Some (set_retrieved a) /\
  (forall n rs, retrieval_name r = Some n -> NoDup (map fst (named_args (st_args s))) ->
     filterx_function_args_check (st_args (snd (run_retrievals env rs (snd (run_retrieval env r s)))))
     <> CheckFailed (unexpected_argument_error n)).
Proof.
  intros Ha. rewrite run_retrieval_args.
  pose proof (retrieval_access_target r s a Ha) as Ht. split; [exact Ht|].
  intros n rs Hn Hnd. apply named_retrieved_check, named_retrieved_steps.
  rewrite run_retrieval_args.
  assert (Htn : retrieval_target (st_args (snd (retrieval_access r s))) r =
                ht_lookup n (named_args (st_args (snd (retrieval_access r s))))).
  { destruct r; simpl in Hn; try discriminate; inversion Hn; reflexivity. }
  split.
  - destruct (retrieval_access_args r s) as [->|[[i ->]|[m ->]]]; simpl; auto.
    rewrite ht_mark_keys. exact Hnd.
  - exists (set_retrieved a). rewrite <- Htn. split; [exact Ht|reflexivity].
Qed.

(** C10: witness of [retrieval_marks_target]. *)
Lemma retrieval_marks_target_witness :
  retrieval_target
    (st_args (snd (run_retrieval (fun _ => None) (RGetNamedLiteralInteger "n")
                                 (n_table (ENonLiteral 3))))) (RGetNamedLiteralInteger "n")
  = Some (set_retrieved (na "n" (ENonLiteral 3))) /\
  filterx_function_args_check
    (st_args (snd (run_retrievals (fun _ => None) []
                     (snd (run_retrieval (fun _ => None) (RGetNamedLiteralInteger "n")
                                         (n_table (ENonLiteral 3)))))))
  <> CheckFailed (unexpected_argument_error "n").
Proof.
  destruct (retrieval_marks_target (fun _ => None) (RGetNamedLiteralInteger "n")
              (n_table (ENonLiteral 3)) (na "n" (ENonLiteral 3)) eq_refl) as [H1 H2].
  split; [exact H1|]. apply (H2 "n" []); [reflexivity|].
  constructor; [intros []|constructor].
Defined.

(** ** Claim on function lookup *)

Lemma args_new_loop_some elems : forall h self rel c err R,
  args_new_loop h self rel elems = (Some c, err, R) -> err = None.
Proof.
  induction elems as [|a r IH]; intros h self rel c err R H; simpl in H.
  - inversion H; reflexivity.
  - destruct (arg_name a) as [n|].
    + destruct (ht_insert n a (named_args self)) as [tbl old]. eapply IH. exact H.
    + destruct h; [discriminate|]. eapply IH. exact H.
Qed.

Lemma args_new_violation_result raw :
  positional_after_named raw = true ->
  bo_result (filterx_function_args_new raw) = None /\
  bo_error (filterx_function_args_new raw) = Some ctor_fail_error.
Proof.
  intros H. unfold filterx_function_args_new.
  destruct (args_new_loop_violation raw false (mkArgs [] []) [] H) as (pre & a & post & R & -> & _).
  split; reflexivity.
Qed.

Lemma args_new_some_error raw c :
  bo_result (filterx_function_args_new raw) = Some c -> bo_error (filterx_function_args_new raw) = None.
Proof.
  unfold filterx_function_args_new.
  destruct (args_new_loop false (mkArgs [] []) [] raw) as [[res err] R] eqn:E. simpl.
  intros ->. exact (args_new_loop_some _ _ _ _ _ _ _ E).
Qed.

(** C4 (corrected).  Ordinary-call lookup.  A raw list with a positional
    argument after a named one gives the construction error, whatever the
    name.  Otherwise, with the built container [c]: a name of the built-in
    simple table gives a simple function wrapping that built-in, whatever
    the plugins; failing that, a simple-function plugin that constructs [f]
    gives a simple function wrapping [f]; failing that, the general
    constructor (the built-in one, else the one a function plugin
    constructs) decides: its expression is returned, and when it returns
    none the error it set is kept, or "function not found" is set if it set
    none; when no tier provides anything, the result is "function not
    found". *)
Theorem function_lookup_resolution
  (bs : string -> option FilterXSimpleFunctionProto) (bc : string -> option FilterXFunctionCtor)
  (cfg : GlobalConfig) (name : string) (raw : list FilterXFunctionArg) :
  (positional_after_named raw = true ->
   filterx_function_lookup bs bc cfg name raw = (None, Some ctor_fail_error)) /\
  (forall c, bo_result (filterx_function_args_new raw) = Some c ->
   (forall f, bs name = Some f ->
      filterx_function_lookup bs bc cfg name raw =
      (Some (SimpleFunction (display_name name) c f), None)) /\
   (forall p f, bs name = None -> cfg_find_simple_func_plugin cfg name = Some p ->
      plugin_construct p = Some f ->
      filterx_function_lookup bs bc cfg name raw =
      (Some (SimpleFunction (display_name name) c f), None)) /\
   (bs name = None ->
    (forall p, cfg_find_simple_func_plugin cfg name = Some p -> plugin_construct p = None) ->
    (forall ctor r err,
       (bc name = Some ctor \/
        (bc name = None /\ exists p, cfg_find_func_plugin cfg name = Some p /\
                                     plugin_construct p = Some ctor)) ->
       ctor name c None = (r, err) ->
       filterx_function_lookup bs bc cfg name raw =
       match r with
       | Some e => (Some e, err)
       | None => (None, Some (match err with Some e => e | None => function_not_found_error end))
       end) /\
    (bc name = None ->
     (forall p, cfg_find_func_plugin cfg name = Some p -> plugin_construct p = None) ->
     filterx_function_lookup bs bc cfg name raw = (None, Some function_not_found_error)))).
Proof.
  split.
  - intros H. destruct (args_new_violation_result raw H) as [Hr He].
    unfold filterx_function_lookup. rewrite Hr, He. reflexivity.
  - intros c Hc. pose proof (args_new_some_error raw c Hc) as He.
    unfold filterx_function_lookup, _lookup_simple_function, _lookup_function.
    rewrite Hc, He. split; [|split].
    + intros f Hf. rewrite Hf. reflexivity.
    + intros p f Hb Hp Hf. rewrite Hb, Hp, Hf. reflexivity.
    + intros Hb Hsp. rewrite Hb.
      assert (Hs : match cfg_find_simple_func_plugin cfg name with
                   | Some p => match plugin_construct p with
                               | Some f => Some (filterx_simple_function_new name c f)
                               | None => None end
                   | None => None end = None).
      { destruct (cfg_find_simple_func_plugin cfg name) as [p|]; [rewrite (Hsp p eq_refl)|]; reflexivity. }
      rewrite Hs. split.
      * intros ctor r err [Hbc|[Hbc (p & Hp & Hpc)]] Hct.
        -- rewrite Hbc, Hct. destruct r; [|destruct err]; reflexivity.
        -- rewrite Hbc, Hp, Hpc, Hct. destruct r; [|destruct err]; reflexivity.
      * intros Hbc Hfp. rewrite Hbc.
        destruct (cfg_find_func_plugin cfg name) as [p|]; [rewrite (Hfp p eq_refl)|]; reflexivity.
Qed.

(** C4: witness of [function_lookup_resolution]. *)
Lemma function_lookup_resolution_witness :
  filterx_function_lookup builtins_f no_ctors empty_cfg "f" [pa (ENonLiteral 0)] =
  (Some (SimpleFunction (display_name "f") (mkArgs [pa (ENonLiteral 0)] []) native_null), None) /\
  filterx_function_lookup builtins_f no_ctors empty_cfg "g" [pa (ENonLiteral 0)] =
  (None, Some function_not_found_error).
Proof.
  destruct (function_lookup_resolution builtins_f no_ctors empty_cfg "f" [pa (ENonLiteral 0)])
    as [_ Hf].
  destruct (function_lookup_resolution builtins_f no_ctors empty_cfg "g" [pa (ENonLiteral 0)])
    as [_ Hg].
  split.
  - apply (proj1 (Hf (mkArgs [pa (ENonLiteral 0)] []) eq_refl) native_null). reflexivity.
  - destruct (proj2 (proj2 (Hg (mkArgs [pa (ENonLiteral 0)] []) eq_refl)) eq_refl)
      as [_ Hnf].
    + intros p H. discriminate.
    + apply Hnf; [reflexivity|]. intros p H. discriminate.
Defined.

(** C4: "f" is in the built-in simple table, yet with a positional argument
    after a named one the lookup yields no callable but the construction
    error. *)
Lemma function_lookup_builtin_counterexample :
  builtins_f "f" = Some native_null /\
  filterx_function_lookup builtins_f no_ctors empty_cfg "f"
    [na "x" (ENonLiteral 1); pa (ENonLiteral 0)] = (None, Some ctor_fail_error).
Proof. split; reflexivity. Qed.

(** ** Further properties: construction *)

Lemma args_new_loop_layout elems : forall h self rel c err R,
  args_new_loop h self rel elems = (Some c, err, R) ->
  positional_args c = (positional_args self ++ filter is_positional elems)%list /\
  Permutation (R ++ filterx_function_args_free c) (rel ++ filterx_function_args_free self ++ elems).
Proof.
  induction elems as [|a r IH]; intros h self rel c err R H; simpl in H.
  - inversion H; subst. rewrite !app_nil_r. split; reflexivity.
  - simpl filter. unfold is_positional at 1, is_named at 1.
    destruct (arg_name a) as [n|] eqn:Ea; simpl.
    + destruct (ht_insert n a (named_args self)) as [tbl old] eqn:Ei.
      destruct (IH _ _ _ _ _ _ H) as [Hp Hperm]. simpl in Hp. split; [exact Hp|].
      rewrite Hperm. unfold filterx_function_args_free. simpl.
      pose proof (ht_insert_perm n a (named_args self)) as Hi. rewrite Ei in Hi. simpl in Hi.
      replace (match old with Some o => (rel ++ [o])%list | None => rel end)
        with (rel ++ option_list old)%list by (destruct old; simpl; auto using app_nil_r).
      rewrite <- !app_assoc. apply Permutation_app_head.
      rewrite Permutation_app_swap_app. apply Permutation_app_head.
      transitivity ((map snd tbl ++ option_list old) ++ r)%list.
      * rewrite <- app_assoc. rewrite !app_assoc. apply Permutation_app_tail.
        apply Permutation_app_comm.
      * rewrite Hi, <- app_assoc. reflexivity.
    + destruct h; [discriminate|].
      destruct (IH _ _ _ _ _ _ H) as [Hp Hperm]. simpl in Hp. split.
      * rewrite Hp, <- app_assoc. reflexivity.
      * rewrite Hperm. unfold filterx_function_args_free. simpl.
        apply Permutation_app_head. rewrite <- !app_assoc. apply Permutation_app_head.
        simpl. apply Permutation_middle.
Qed.

Lemma last_named_some x l b : last_named x l = Some b -> In b l /\ arg_name b = Some x.
Proof.
  induction l as [|a r IH]; simpl; [discriminate|].
  destruct (last_named x r) as [b'|] eqn:E.
  - intros H. inversion H; subst. destruct (IH eq_refl). auto.
  - destruct (arg_name a) as [n|] eqn:Ea; [|discriminate].
    destruct (String.eqb x n) eqn:Ex; [|discriminate]. intros H. inversion H; subst.
    apply String.eqb_eq in Ex; subst. auto.
Qed.

Lemma last_named_exists x l a : In a l -> arg_name a = Some x -> last_named x l <> None.
Proof.
  induction l as [|a' r IH]; simpl; [contradiction|]. intros [->|Hin] Ha.
  - destruct (last_named x r); [discriminate|]. rewrite Ha, String.eqb_refl. discriminate.
  - destruct (last_named x r) eqn:E; [discriminate|]. exfalso. exact (IH Hin Ha eq_refl).
Qed.

Lemma args_new_success raw c :
  bo_result (filterx_function_args_new raw) = Some c ->
  positional_after_named raw = false /\
  bo_error (filterx_function_args_new raw) = None /\
  positional_args c = filter is_positional raw /\
  Permutation (bo_released (filterx_function_args_new raw) ++ filterx_function_args_free c) raw /\
  NoDup (map fst (named_args c)) /\
  (forall x, ht_lookup x (named_args c) = last_named x raw).
Proof.
  intros Hc.
  assert (Hp : positional_after_named raw = false).
  { destruct (positional_after_named raw) eqn:E; [|reflexivity].
    rewrite (proj1 (args_new_violation_result raw E)) in Hc. discriminate. }
  split; [exact Hp|]. split; [exact (args_new_some_error raw c Hc)|].
  revert Hc. unfold filterx_function_args_new.
  destruct (args_new_loop false (mkArgs [] []) [] raw) as [[res err] R] eqn:Hl. simpl.
  intros ->.
  destruct (args_new_loop_layout _ _ _ _ _ _ _ Hl) as [Hpos Hperm].
  destruct (args_new_loop_ok raw false (mkArgs [] []) [] Hp) as (c' & R' & Hl' & Hnd & Hlk).
  rewrite Hl in Hl'. inversion Hl'; subst c' R'.
  split; [exact Hpos|]. split; [exact Hperm|]. split; [apply Hnd; constructor|].
  intros x. rewrite Hlk. destruct (last_named x raw); reflexivity.
Qed.

Lemma forallb_retrieved_false l a :
  In a l -> arg_retrieved a = false -> forallb arg_retrieved l = false.
Proof.
  intros Hin Ha. destruct (forallb arg_retrieved l) eqn:E; [|reflexivity].
  rewrite forallb_forall in E. rewrite (E a Hin) in Ha. discriminate.
Qed.

(** A built container whose raw list held a named argument has a non-empty
    table; when no raw argument was retrieved, its first entry is not
    either. *)
Lemma args_new_named_first raw c :
  bo_result (filterx_function_args_new raw) = Some c ->
  existsb is_named raw = true ->
  exists x b rest,
    named_args c = (x, b) :: rest /\ In b raw /\ arg_name b = Some x.
Proof.
  intros Hc Hn. destruct (args_new_success raw c Hc) as (_ & _ & _ & _ & _ & Hlk).
  apply existsb_exists in Hn as (a & Hin & Ha). unfold is_named in Ha.
  destruct (arg_name a) as [m|] eqn:Em; [|discriminate].
  pose proof (last_named_exists m raw a Hin Em) as Hne. rewrite <- Hlk in Hne.
  destruct (named_args c) as [|[x b] rest] eqn:Ht; [contradiction|].
  exists x, b, rest. split; [reflexivity|].
  specialize (Hlk x). simpl in Hlk. rewrite String.eqb_refl in Hlk.
  exact (last_named_some x raw b (eq_sym Hlk)).
Qed.

Lemma args_new_nil : filterx_function_args_new [] = mkBuildOut (Some (mkArgs [] [])) None [] true.
Proof. reflexivity. Qed.

(** ** Further properties: lookup *)

(** X1.  Generator-function lookup.  A raw list with a positional argument
    after a named one gives the construction error, whatever the name.
    Otherwise, with the built container [c], the generator constructor (the
    built-in one, else the one a generator plugin constructs) decides: its
    expression is returned, and when it returns none the error it set is
    kept, or "function not found" is set if it set none; when neither the
    built-in generator table nor a generator plugin provides a constructor,
    the result is "function not found". *)
Theorem generator_lookup_resolution
  (bg : string -> option FilterXFunctionCtor)
  (gp : GlobalConfig -> string -> option (Plugin FilterXFunctionCtor))
  (cfg : GlobalConfig) (name : string) (raw : list FilterXFunctionArg) :
  (positional_after_named raw = true ->
   filterx_generator_function_lookup bg gp cfg name raw = (None, Some ctor_fail_error)) /\
  (forall c, bo_result (filterx_function_args_new raw) = Some c ->
   (forall ctor r err,
      (bg name = Some ctor \/
       (bg name = None /\ exists p, gp cfg name = Some p /\ plugin_construct p = Some ctor)) ->
      ctor name c None = (r, err) ->
      filterx_generator_function_lookup bg gp cfg name raw =
      match r with
      | Some e => (Some e, err)
      | None => (None, Some (match err with Some e => e | None => function_not_found_error end))
      end) /\
   (bg name = None ->
    (forall p, gp cfg name = Some p -> plugin_construct p = None) ->
    filterx_generator_function_lookup bg gp cfg name raw = (None, Some function_not_found_error))).
Proof.
  split.
  - intros H. destruct (args_new_violation_result raw H) as [Hr He].
    unfold filterx_generator_function_lookup. rewrite Hr, He. reflexivity.
  - intros c Hc. pose proof (args_new_some_error raw c Hc) as He.
    unfold filterx_generator_function_lookup, _lookup_generator_function.
    rewrite Hc, He. split.
    + intros ctor r err [Hbg|[Hbg (p & Hp & Hpc)]] Hct.
      * rewrite Hbg, Hct. destruct r; [|destruct err]; reflexivity.
      * rewrite Hbg, Hp, Hpc, Hct. destruct r; [|destruct err]; reflexivity.
    + intros Hbg Hgp. rewrite Hbg.
      destruct (gp cfg name) as [p|]; [rewrite (Hgp p eq_refl)|]; reflexivity.
Qed.

(** X1: witness of [generator_lookup_resolution]. *)
Lemma generator_lookup_resolution_witness :
  filterx_generator_function_lookup builtin_gen_g no_gen_plugins empty_cfg "g" [pa (ENonLiteral 0)] =
  (Some (ConstructedFunction 0 "g" (mkArgs [pa (ENonLiteral 0)] [])), None) /\
  filterx_generator_function_lookup builtin_gen_g no_gen_plugins empty_cfg "f" [pa (ENonLiteral 0)] =
  (None, Some function_not_found_error).
Proof.
  destruct (generator_lookup_resolution builtin_gen_g no_gen_plugins empty_cfg "g" [pa (ENonLiteral 0)])
    as [_ Hg].
  destruct (generator_lookup_resolution builtin_gen_g no_gen_plugins empty_cfg "f" [pa (ENonLiteral 0)])
    as [_ Hf].
  split.
  - apply (proj1 (Hg (mkArgs [pa (ENonLiteral 0)] []) eq_refl) gen_ctor
             (Some (ConstructedFunction 0 "g" (mkArgs [pa (ENonLiteral 0)] []))) None).
    + left. reflexivity.
    + reflexivity.
  - apply (proj2 (Hf (mkArgs [pa (ENonLiteral 0)] []) eq_refl)); [reflexivity|].
    intros p H. discriminate.
Defined.

(** ** Further properties: the built container *)

(** X2.  When [filterx_function_args_new] builds a container, its
    positional arguments are exactly the unnamed raw arguments, in raw
    order (so [filterx_function_args_len] is their count), and no raw
    argument is lost or duplicated: the arguments it destroyed on name
    replacement together with those the container owns (what
    [filterx_function_args_free] releases) are a permutation of the raw
    list. *)
Theorem args_new_success_layout (raw : list FilterXFunctionArg) (c : FilterXFunctionArgs) :
  bo_result (filterx_function_args_new raw) = Some c ->
  positional_args c = filter is_positional raw /\
  filterx_function_args_len c = length (filter is_positional raw) /\
  Permutation (bo_released (filterx_function_args_new raw) ++ filterx_function_args_free c) raw.
Proof.
  intros Hc. destruct (args_new_success raw c Hc) as (_ & _ & Hpos & Hperm & _).
  unfold filterx_function_args_len. rewrite Hpos. auto.
Qed.

(** X2: witness of [args_new_success_layout]. *)
Lemma args_new_success_layout_witness :
  bo_result (filterx_function_args_new dup_raw) =
    Some (mkArgs [pa (ENonLiteral 0)] [("x", na "x" (ENonLiteral 2))]) /\
  Permutation (bo_released (filterx_function_args_new dup_raw) ++
               filterx_function_args_free (mkArgs [pa (ENonLiteral 0)] [("x", na "x" (ENonLiteral 2))]))
              dup_raw.
Proof.
  split; [reflexivity|].
  apply (proj2 (proj2 (args_new_success_layout dup_raw
                         (mkArgs [pa (ENonLiteral 0)] [("x", na "x" (ENonLiteral 2))]) eq_refl))).
Defined.

(** X3.  A container built by [filterx_function_args_new] is empty
    ([filterx_function_args_empty]) exactly when the raw list was empty:
    every raw argument, positional or named, leaves an entry. *)
Theorem args_new_empty_iff (raw : list FilterXFunctionArg) (c : FilterXFunctionArgs) :
  bo_result (filterx_function_args_new raw) = Some c ->
  (filterx_function_args_empty c = true <-> raw = []).
Proof.
  intros Hc. split.
  - intros He. destruct raw as [|a r]; [reflexivity|exfalso].
    unfold filterx_function_args_empty in He. apply andb_true_iff in He as [Hp Hn].
    apply Nat.eqb_eq, length_zero_iff_nil in Hp. apply Nat.eqb_eq, length_zero_iff_nil in Hn.
    destruct (args_new_success (a :: r) c Hc) as (_ & _ & Hpos & _).
    destruct (is_named a) eqn:Ea.
    + destruct (args_new_named_first (a :: r) c Hc) as (x & b & rest & Ht & _).
      * simpl. rewrite Ea. reflexivity.
      * rewrite Hn in Ht. discriminate.
    + rewrite Hp in Hpos. simpl in Hpos. unfold is_positional at 1 in Hpos.
      rewrite Ea in Hpos. discriminate.
  - intros ->. rewrite args_new_nil in Hc. simpl in Hc. inversion Hc. reflexivity.
Qed.

(** X3: witness of [args_new_empty_iff]. *)
Lemma args_new_empty_iff_witness :
  bo_result (filterx_function_args_new [na "x" (ENonLiteral 1)]) =
    Some (mkArgs [] [("x", na "x" (ENonLiteral 1))]) /\
  filterx_function_args_empty (mkArgs [] [("x", na "x" (ENonLiteral 1))]) = false.
Proof.
  split; [reflexivity|].
  destruct (filterx_function_args_empty (mkArgs [] [("x", na "x" (ENonLiteral 1))])) eqn:E;
    [|reflexivity].
  apply (args_new_empty_iff [na "x" (ENonLiteral 1)] _ eq_refl) in E. discriminate.
Defined.

(** X4.  Check on a freshly built container, whose raw arguments were all
    created unretrieved (as [filterx_function_arg_new] creates them):
    check succeeds exactly when the raw list was empty, and it fails its
    assertion (aborts) as soon as the raw list held a positional argument. *)
Theorem args_new_fresh_check (raw : list FilterXFunctionArg) (c : FilterXFunctionArgs) :
  Forall (fun a => arg_retrieved a = false) raw ->
  bo_result (filterx_function_args_new raw) = Some c ->
  (filterx_function_args_check c = CheckOk <-> raw = []) /\
  (existsb is_positional raw = true -> filterx_function_args_check c = CheckAbort).
Proof.
  intros Hfresh Hc. destruct (args_new_success raw c Hc) as (_ & _ & Hpos & _).
  assert (Habort : existsb is_positional raw = true -> filterx_function_args_check c = CheckAbort).
  { intros Hex. apply existsb_exists in Hex as (a & Hin & Ha).
    unfold filterx_function_args_check.
    rewrite (forallb_retrieved_false (positional_args c) a).
    - reflexivity.
    - rewrite Hpos. apply filter_In. auto.
    - rewrite Forall_forall in Hfresh. auto. }
  split; [|exact Habort]. split.
  - intros Hok. destruct raw as [|a r]; [reflexivity|exfalso].
    destruct (is_named a) eqn:Ea.
    + destruct (args_new_named_first (a :: r) c Hc) as (x & b & rest & Ht & Hb & _).
      * simpl. rewrite Ea. reflexivity.
      * rewrite Forall_forall in Hfresh. pose proof (Hfresh b Hb) as Hbr.
        unfold filterx_function_args_check in Hok. rewrite Ht in Hok.
        destruct (forallb arg_retrieved (positional_args c)); [|discriminate].
        simpl in Hok. rewrite Hbr in Hok. discriminate.
    + rewrite Habort in Hok; [discriminate|].
      simpl. unfold is_positional at 1. rewrite Ea. reflexivity.
  - intros ->. rewrite args_new_nil in Hc. simpl in Hc. inversion Hc. reflexivity.
Qed.

(** X4: witness of [args_new_fresh_check]. *)
Lemma args_new_fresh_check_witness :
  filterx_function_args_check (mkArgs [pa (ENonLiteral 0)] [("x", na "x" (ENonLiteral 2))])
  = CheckAbort.
Proof.
  apply (proj2 (args_new_fresh_check dup_raw
                  (mkArgs [pa (ENonLiteral 0)] [("x", na "x" (ENonLiteral 2))])
                  ltac:(repeat constructor) eq_refl)).
  reflexivity.
Defined.

(** ** Further properties: retrieval *)

Ltac getter_cases :=
  unfold run_retrieval, filterx_function_args_get_object, filterx_function_args_get_literal_string,
    filterx_function_args_is_literal_null, filterx_function_args_get_named_object,
    filterx_function_args_get_named_literal_object, filterx_function_args_get_named_literal_string,
    filterx_function_args_get_named_literal_boolean, filterx_function_args_get_named_literal_integer,
    filterx_function_args_get_named_literal_double, filterx_function_args_get_named_literal_generic_number,
    filterx_function_args_get_expr, filterx_function_args_get_named_expr,
    _get_literal_string_from_expr, filterx_expr_eval, bind, ret, gets, put_args, emit, id;
  repeat (cbn; match goal with
    | |- context [if ?b then _ else _] => destruct b eqn:?
    | |- context [match ?x with Some _ => _ | None => _ end] => destruct x eqn:?
    | |- context [match ?x with ELiteral _ => _ | ENonLiteral _ => _ end] => destruct x eqn:?
    | |- context [filterx_primitive_get_value ?o] => destruct o
    end); cbn.

Lemma run_retrieval_ok env r s : fst (run_retrieval env r s) = Ok tt.
Proof. destruct s as [[pos named] tr]; destruct r; getter_cases; reflexivity. Qed.

(** X5.  By-index retrieval past the last positional argument: the
    expression and value getters and the literal-string getter return NULL,
    the literal-null test returns FALSE, and none of them changes the
    container or evaluates anything. *)
Theorem positional_getters_out_of_range (env : Env) (i : nat) (s : St) :
  length (positional_args (st_args s)) <= i ->
  filterx_function_args_get_expr i s = (Ok None, s) /\
  filterx_function_args_get_object env i s = (Ok None, s) /\
  filterx_function_args_get_literal_string env i s = (Ok None, s) /\
  filterx_function_args_is_literal_null env i s = (Ok false, s).
Proof.
  intros Hi. assert (Hn : nth_error (positional_args (st_args s)) i = None)
    by (apply nth_error_None; exact Hi).
  unfold filterx_function_args_get_object, filterx_function_args_get_literal_string,
    filterx_function_args_is_literal_null, bind.
  rewrite !(get_expr_absent _ _ Hn). repeat split.
Qed.

(** X5: witness of [positional_getters_out_of_range]. *)
Lemma positional_getters_out_of_range_witness :
  filterx_function_args_is_literal_null (fun _ => None) 1 one_positional = (Ok false, one_positional).
Proof.
  apply (proj2 (proj2 (proj2 (positional_getters_out_of_range (fun _ => None) 1 one_positional
                                ltac:(simpl; lia))))).
Defined.

(** X6.  Named retrieval of a name the table lacks: every named getter
    reports "does not exist" with its default value (NULL, NaN, FALSE or 0)
    and no error, and leaves the container and the evaluation trace
    unchanged. *)
Theorem named_getters_absent (env : Env) (n : string) (s : St) :
  ht_lookup n (named_args (st_args s)) = None ->
  filterx_function_args_get_named_expr n s = (Ok None, s) /\
  filterx_function_args_get_named_object env n s = (Ok (None, false), s) /\
  filterx_function_args_get_named_literal_object env n s = (Ok (None, false), s) /\
  filterx_function_args_get_named_literal_string env n s = (Ok (None, false), s) /\
  filterx_function_args_get_named_literal_generic_number env n s = (Ok (GN_NAN, false, false), s) /\
  filterx_function_args_get_named_literal_boolean env n s = (Ok (false, false, false), s) /\
  filterx_function_args_get_named_literal_integer env n s = (Ok (0%Z, false, false), s) /\
  filterx_function_args_get_named_literal_double env n s = (Ok (0%Q, false, false), s).
Proof.
  intros Hn.
  unfold filterx_function_args_get_named_object, filterx_function_args_get_named_literal_object,
    filterx_function_args_get_named_literal_string, filterx_function_args_get_named_literal_boolean,
    filterx_function_args_get_named_literal_integer, filterx_function_args_get_named_literal_double,
    filterx_function_args_get_named_literal_generic_number, bind.
  rewrite !(get_named_expr_absent _ _ Hn). repeat split.
Qed.

(** X6: witness of [named_getters_absent]. *)
Lemma named_getters_absent_witness :
  filterx_function_args_get_named_literal_double (fun _ => None) "m" (n_table (ENonLiteral 0))
  = (Ok (0%Q, false, false), n_table (ENonLiteral 0)).
Proof.
  apply (named_getters_absent (fun _ => None) "m" (n_table (ENonLiteral 0)) eq_refl).
Defined.

(** X7.  The literal-only getters never evaluate a non-literal argument:
    when the target exists but is not a literal, the positional
    literal-string getter returns NULL and the literal-null test FALSE,
    and every named literal getter reports that the argument exists, with
    no value and, for the typed ones, with an error; in every case without
    evaluating anything. *)
Theorem literal_getters_skip_non_literal (env : Env) (s : St) :
  (forall i a id, nth_error (positional_args (st_args s)) i = Some a -> arg_value a = ENonLiteral id ->
     unevaluated (filterx_function_args_get_literal_string env i) s None /\
     unevaluated (filterx_function_args_is_literal_null env i) s false) /\
  (forall n a id, ht_lookup n (named_args (st_args s)) = Some a -> arg_value a = ENonLiteral id ->
     unevaluated (filterx_function_args_get_named_literal_object env n) s (None, true) /\
     unevaluated (filterx_function_args_get_named_literal_string env n) s (None, true) /\
     unevaluated (filterx_function_args_get_named_literal_generic_number env n) s (GN_NAN, true, true) /\
     unevaluated (filterx_function_args_get_named_literal_boolean env n) s (false, true, true) /\
     unevaluated (filterx_function_args_get_named_literal_integer env n) s (0%Z, true, true) /\
     unevaluated (filterx_function_args_get_named_literal_double env n) s (0%Q, true, true)).
Proof.
  split.
  - intros i a id Ha Hv.
    unfold unevaluated, filterx_function_args_get_literal_string,
      filterx_function_args_is_literal_null, bind.
    rewrite !(get_expr_found _ _ _ Ha), Hv. repeat split.
  - intros n a id Ha Hv.
    unfold unevaluated, filterx_function_args_get_named_literal_object,
      filterx_function_args_get_named_literal_string, filterx_function_args_get_named_literal_boolean,
      filterx_function_args_get_named_literal_integer, filterx_function_args_get_named_literal_double,
      filterx_function_args_get_named_literal_generic_number, bind.
    rewrite !(get_named_expr_found _ _ _ Ha), Hv. repeat split.
Qed.

(** X7: witness of [literal_getters_skip_non_literal]. *)
Lemma literal_getters_skip_non_literal_witness :
  unevaluated (filterx_function_args_get_named_literal_integer (fun _ => Some (OInteger 5)) "n")
              (n_table (ENonLiteral 0)) (0%Z, true, true).
Proof.
  apply (proj2 (literal_getters_skip_non_literal (fun _ => Some (OInteger 5)) (n_table (ENonLiteral 0)))
           "n" (na "n" (ENonLiteral 0)) 0 eq_refl eq_refl).
Defined.

(** X8.  A retrieval evaluates at most one expression, that of its own
    target argument, and at most once: its trace is unchanged, or gains
    exactly the evaluation of the target.  With no target (index out of
    range, absent name) nothing is evaluated. *)
Theorem retrieval_evaluates_only_target (env : Env) (r : Retrieval) (s : St) :
  st_trace (snd (run_retrieval env r s)) = st_trace s \/
  exists a, retrieval_target (st_args s) r = Some a /\
            st_trace (snd (run_retrieval env r s)) = (st_trace s ++ [EEval (arg_value a)])%list.
Proof.
  destruct s as [[pos named] tr]; destruct r; getter_cases;
    first [ left; reflexivity
          | right; eexists; split; [reflexivity|]; cbn; congruence ].
Qed.

(** X9.  The typed named getters accept only their own type, with no
    conversion: on an integer literal the integer getter yields its value
    and the boolean getter whether it is non-zero, while the double getter
    reports an error; on a double literal the double getter yields its
    value while the integer and boolean getters report an error; on a
    literal that is not a primitive all three report an error.  An error
    comes with the value 0 (FALSE) and "exists". *)
Theorem typed_getters_strict (env : Env) (n : string) (s : St) (a : FilterXFunctionArg) :
  ht_lookup n (named_args (st_args s)) = Some a ->
  (forall z, arg_value a = ELiteral (OInteger z) ->
     fst (filterx_function_args_get_named_literal_integer env n s) = Ok (z, true, false) /\
     fst (filterx_function_args_get_named_literal_boolean env n s) = Ok (negb (Z.eqb z 0), true, false) /\
     fst (filterx_function_args_get_named_literal_double env n s) = Ok (0%Q, true, true)) /\
  (forall q, arg_value a = ELiteral (ODouble q) ->
     fst (filterx_function_args_get_named_literal_integer env n s) = Ok (0%Z, true, true) /\
     fst (filterx_function_args_get_named_literal_boolean env n s) = Ok (false, true, true) /\
     fst (filterx_function_args_get_named_literal_double env n s) = Ok (q, true, false)) /\
  (forall o, arg_value a = ELiteral o -> is_primitive o = false ->
     fst (filterx_function_args_get_named_literal_integer env n s) = Ok (0%Z, true, true) /\
     fst (filterx_function_args_get_named_literal_boolean env n s) = Ok (false, true, true) /\
     fst (filterx_function_args_get_named_literal_double env n s) = Ok (0%Q, true, true)).
Proof.
  intros Ha.
  unfold filterx_function_args_get_named_literal_boolean,
    filterx_function_args_get_named_literal_integer, filterx_function_args_get_named_literal_double,
    filterx_function_args_get_named_literal_generic_number, bind.
  rewrite !(get_named_expr_found _ _ _ Ha). split; [|split].
  - intros z Hv. rewrite Hv. repeat split.
  - intros q Hv. rewrite Hv. repeat split.
  - intros o Hv Hp. rewrite Hv. destruct o; try discriminate; repeat split.
Qed.

(** X9: witness of [typed_getters_strict]. *)
Lemma typed_getters_strict_witness :
  fst (filterx_function_args_get_named_literal_double (fun _ => None) "n"
         (n_table (ELiteral (OInteger 2)))) = Ok (0%Q, true, true).
Proof.
  apply (proj1 (typed_getters_strict (fun _ => None) "n" (n_table (ELiteral (OInteger 2)))
                  (na "n" (ELiteral (OInteger 2))) eq_refl) 2%Z eq_refl).
Defined.

Lemma Forall2_refl_gen {A} (R : A -> A -> Prop) : (forall a, R a a) -> forall l, Forall2 R l l.
Proof. intros H l. induction l; constructor; auto. Qed.

Lemma Forall2_trans_gen {A} (R : A -> A -> Prop) :
  (forall a b c, R a b -> R b c -> R a c) ->
  forall l1 l2 l3, Forall2 R l1 l2 -> Forall2 R l2 l3 -> Forall2 R l1 l3.
Proof.
  intros Ht l1 l2 l3 H12. revert l3.
  induction H12 as [|x y l1 l2 Hxy _ IH]; intros l3 H23; inversion H23; subst; constructor; eauto.
Qed.

Lemma Forall2_nth_error_r {A B} (R : A -> B -> Prop) l1 l2 j b :
  Forall2 R l1 l2 -> nth_error l2 j = Some b -> exists a, nth_error l1 j = Some a /\ R a b.
Proof.
  intros H. revert j. induction H as [|x y l1 l2 Hxy _ IH]; intros [|j]; simpl; intros Hb;
    try discriminate.
  - inversion Hb; subst. eauto.
  - apply IH, Hb.
Qed.

Lemma arg_le_refl a : arg_le a a.
Proof. unfold arg_le. auto. Qed.

Lemma arg_le_trans a b c : arg_le a b -> arg_le b c -> arg_le a c.
Proof.
  unfold arg_le. intros (H1 & H2 & H3) (H4 & H5 & H6). repeat split; congruence || auto.
Qed.

Lemma arg_le_set_retrieved a : arg_le a (set_retrieved a).
Proof. unfold arg_le, set_retrieved. simpl. auto. Qed.

Lemma args_le_refl x : args_le x x.
Proof.
  split; apply Forall2_refl_gen; [apply arg_le_refl|]. intros p. split; [reflexivity|apply arg_le_refl].
Qed.

Lemma args_le_trans x y z : args_le x y -> args_le y z -> args_le x z.
Proof.
  intros [H1 H2] [H3 H4]. split.
  - exact (Forall2_trans_gen _ arg_le_trans _ _ _ H1 H3).
  - refine (Forall2_trans_gen _ _ _ _ _ H2 H4).
    intros p q r [E1 L1] [E2 L2]. split; [congruence|exact (arg_le_trans _ _ _ L1 L2)].
Qed.

Lemma set_nth_retrieved_le i l : Forall2 arg_le l (set_nth_retrieved i l).
Proof.
  revert i; induction l as [|a l IH]; intros [|i]; simpl; constructor;
    auto using arg_le_refl, arg_le_set_retrieved, Forall2_refl_gen.
Qed.

Lemma ht_mark_le m t :
  Forall2 (fun p q => fst p = fst q /\ arg_le (snd p) (snd q)) t (ht_mark m t).
Proof.
  induction t as [|[k v] t IH]; simpl; [constructor|].
  destruct (String.eqb m k); constructor; simpl; auto using arg_le_refl, arg_le_set_retrieved.
  apply Forall2_refl_gen. intros p. split; [reflexivity|apply arg_le_refl].
Qed.

Lemma run_retrieval_le env r s : args_le (st_args s) (st_args (snd (run_retrieval env r s))).
Proof.
  rewrite run_retrieval_args.
  destruct (retrieval_access_args r s) as [->|[[i ->]|[m ->]]].
  - apply args_le_refl.
  - split; simpl; [apply set_nth_retrieved_le|].
    apply Forall2_refl_gen. intros p. split; [reflexivity|apply arg_le_refl].
  - split; simpl; [apply Forall2_refl_gen, arg_le_refl|apply ht_mark_le].
Qed.

(** X10.  Any sequence of retrievals keeps every argument where it is, with
    its name and expression (positions, table keys and iteration order
    alike), and never clears a [retrieved] flag: flags only go from FALSE
    to TRUE. *)
Theorem retrievals_monotone (env : Env) (rs : list Retrieval) (s : St) :
  args_le (st_args s) (st_args (snd (run_retrievals env rs s))).
Proof.
  revert s. induction rs as [|r rs IH]; intros s; simpl; [apply args_le_refl|].
  unfold bind. pose proof (run_retrieval_ok env r s) as Hok.
  pose proof (run_retrieval_le env r s) as Hle.
  destruct (run_retrieval env r s) as [res s1]. simpl in Hok, Hle. subst res.
  exact (args_le_trans _ _ _ Hle (IH s1)).
Qed.

Lemma retrieval_index_target r i x :
  retrieval_index r = Some i -> retrieval_target x r = nth_error (positional_args x) i.
Proof. destruct r; simpl; intros H; inversion H; reflexivity. Qed.

Lemma run_retrievals_cover env rs : forall s,
  (forall j, j < length (positional_args (st_args s)) ->
     (exists r, In r rs /\ retrieval_index r = Some j) \/
     (forall a, nth_error (positional_args (st_args s)) j = Some a -> arg_retrieved a = true)) ->
  forallb arg_retrieved (positional_args (st_args (snd (run_retrievals env rs s)))) = true.
Proof.
  induction rs as [|r rs IH]; intros s H; simpl.
  - apply forallb_forall. intros a Hin. apply In_nth_error in Hin as [j Hj].
    assert (Hjl : j < length (positional_args (st_args s))).
    { apply nth_error_Some. rewrite Hj. discriminate. }
    destruct (H j Hjl) as [(r & [] & _)|Hr]. exact (Hr a Hj).
  - unfold bind. pose proof (run_retrieval_ok env r s) as Hok.
    pose proof (run_retrieval_le env r s) as Hle.
    pose proof (retrieval_access_target r s) as Htg. rewrite <- (run_retrieval_args env r s) in Htg.
    destruct (run_retrieval env r s) as [res s1]. simpl in Hok, Hle, Htg. subst res.
    apply IH. destruct Hle as [Hpos _].
    intros j Hj.
    assert (Hlen : length (positional_args (st_args s1)) = length (positional_args (st_args s)))
      by (symmetry; eapply Forall2_length; exact Hpos).
    rewrite Hlen in Hj.
    destruct (H j Hj) as [(r' & [->|Hin] & Hi)|Hr].
    + right. intros b Hb.
      destruct (nth_error (positional_args (st_args s)) j) as [a|] eqn:Ea;
        [|apply nth_error_None in Ea; lia].
      rewrite <- (retrieval_index_target r' j (st_args s) Hi) in Ea.
      pose proof (Htg a Ea) as Ht. rewrite (retrieval_index_target r' j _ Hi), Hb in Ht.
      inversion Ht. reflexivity.
    + left. exists r'. auto.
    + right. intros b Hb. destruct (Forall2_nth_error_r _ _ _ _ _ Hpos Hb) as (a & Ha & _ & _ & Himp).
      exact (Himp (Hr a Ha)).
Qed.

(** X11.  If a function's retrievals read every positional index (through
    the expression, value, literal-string or literal-null getters), check
    run afterwards never fails its assertion, whatever else was retrieved
    and in whatever order. *)
Theorem retrievals_cover_positional (env : Env) (rs : list Retrieval) (s : St) :
  (forall i, i < length (positional_args (st_args s)) ->
     exists r, In r rs /\ retrieval_index r = Some i) ->
  filterx_function_args_check (st_args (snd (run_retrievals env rs s))) <> CheckAbort.
Proof.
  intros H. unfold filterx_function_args_check.
  rewrite (run_retrievals_cover env rs s); [apply check_named_never_aborts|].
  intros j Hj. left. exact (H j Hj).
Qed.

(** X11: witness of [retrievals_cover_positional]. *)
Lemma retrievals_cover_positional_witness :
  filterx_function_args_check
    (st_args (snd (run_retrievals (fun _ => None) [RGetNamedExpr "x"; RIsLiteralNull 0] one_positional)))
  <> CheckAbort.
Proof.
  apply retrievals_cover_positional. simpl. intros i Hi.
  exists (RIsLiteralNull 0). split; [right; left; reflexivity|].
  replace i with 0 by lia. reflexivity.
Defined.

(** ** Further properties: the simple-function wrapper *)

Lemma same_inputs_refl x : same_inputs x x.
Proof. split; reflexivity. Qed.

Lemma same_inputs_trans x y z : same_inputs x y -> same_inputs y z -> same_inputs x z.
Proof. intros [H1 H2] [H3 H4]. split; congruence. Qed.

Lemma keeps_bind {A B} (m : M A) (k : A -> M B) :
  keeps_inputs m -> (forall a, keeps_inputs (k a)) -> keeps_inputs (bind m k).
Proof.
  intros Hm Hk s. unfold bind. specialize (Hm s).
  destruct (m s) as [[a|] s'] eqn:E; simpl in *; [|exact Hm].
  exact (same_inputs_trans _ _ _ (Hk a s') Hm).
Qed.

Lemma preserves_keeps {A} (m : M A) : preserves_args m -> keeps_inputs m.
Proof. intros H s. rewrite H. apply same_inputs_refl. Qed.

Lemma get_expr_keeps i : keeps_inputs (filterx_function_args_get_expr i).
Proof.
  intros s. destruct (nth_error (positional_args (st_args s)) i) as [a|] eqn:E.
  - rewrite (get_expr_found _ _ _ E). split; simpl; [reflexivity|apply set_nth_retrieved_values].
  - rewrite (get_expr_absent _ _ E). apply same_inputs_refl.
Qed.

Lemma get_object_keeps env i : keeps_inputs (filterx_function_args_get_object env i).
Proof.
  unfold filterx_function_args_get_object. apply keeps_bind; [apply get_expr_keeps|].
  intros [e|]; apply preserves_keeps; solve_preserves.
Qed.

Lemma eval_args_loop_keeps env idxs : forall res, keeps_inputs (eval_args_loop env idxs res).
Proof.
  induction idxs as [|i idxs IH]; intros res; simpl.
  - apply preserves_keeps. solve_preserves.
  - apply keeps_bind; [apply get_object_keeps|].
    intros [o|]; [apply IH|apply preserves_keeps; solve_preserves].
Qed.

Lemma simple_eval_keeps env fname f : keeps_inputs (_simple_eval env fname f).
Proof.
  unfold _simple_eval. apply keeps_bind; [apply preserves_keeps; solve_preserves|].
  intros empty. destruct (negb empty).
  - apply keeps_bind.
    + unfold _simple_function_eval_args. apply keeps_bind; [apply preserves_keeps; solve_preserves|].
      intros len. apply keeps_bind; [apply eval_args_loop_keeps|].
      intros [objs|]; apply preserves_keeps; [|solve_preserves].
      unfold run_args_check, filterx_simple_function_argument_error. solve_preserves.
    + intros [a|]; apply preserves_keeps; unfold call_native; solve_preserves.
  - apply preserves_keeps. unfold call_native. solve_preserves.
Qed.

Lemma flags_only_refl x : flags_only x x.
Proof. split; [reflexivity|apply Forall2_refl_gen, arg_le_refl]. Qed.

Lemma flags_only_trans x y z : flags_only x y -> flags_only y z -> flags_only x z.
Proof.
  intros [H1 H2] [H3 H4]. split; [congruence|].
  exact (Forall2_trans_gen _ arg_le_trans _ _ _ H2 H4).
Qed.

Lemma keeps_flags_bind {A B} (m : M A) (k : A -> M B) :
  keeps_flags m -> (forall a, keeps_flags (k a)) -> keeps_flags (bind m k).
Proof.
  intros Hm Hk s. unfold bind. specialize (Hm s).
  destruct (m s) as [[a|] s'] eqn:E; simpl in *; [|exact Hm].
  exact (flags_only_trans _ _ _ Hm (Hk a s')).
Qed.

Lemma preserves_keeps_flags {A} (m : M A) : preserves_args m -> keeps_flags m.
Proof. intros H s. rewrite H. apply flags_only_refl. Qed.

Lemma get_expr_keeps_flags i : keeps_flags (filterx_function_args_get_expr i).
Proof.
  intros s. destruct (nth_error (positional_args (st_args s)) i) as [a|] eqn:E.
  - rewrite (get_expr_found _ _ _ E). split; simpl; [reflexivity|apply set_nth_retrieved_le].
  - rewrite (get_expr_absent _ _ E). apply flags_only_refl.
Qed.

Lemma get_object_keeps_flags env i : keeps_flags (filterx_function_args_get_object env i).
Proof.
  unfold filterx_function_args_get_object. apply keeps_flags_bind; [apply get_expr_keeps_flags|].
  intros [e|]; apply preserves_keeps_flags; solve_preserves.
Qed.

Lemma eval_args_loop_keeps_flags env idxs : forall res, keeps_flags (eval_args_loop env idxs res).
Proof.
  induction idxs as [|i idxs IH]; intros res; simpl.
  - apply preserves_keeps_flags. solve_preserves.
  - apply keeps_flags_bind; [apply get_object_keeps_flags|].
    intros [o|]; [apply IH|apply preserves_keeps_flags; solve_preserves].
Qed.

Lemma simple_eval_keeps_flags env fname f : keeps_flags (_simple_eval env fname f).
Proof.
  unfold _simple_eval. apply keeps_flags_bind; [apply preserves_keeps_flags; solve_preserves|].
  intros empty. destruct (negb empty).
  - apply keeps_flags_bind.
    + unfold _simple_function_eval_args.
      apply keeps_flags_bind; [apply preserves_keeps_flags; solve_preserves|].
      intros len. apply keeps_flags_bind; [apply eval_args_loop_keeps_flags|].
      intros [objs|]; apply preserves_keeps_flags; [|solve_preserves].
      unfold run_args_check, filterx_simple_function_argument_error. solve_preserves.
    + intros [a|]; apply preserves_keeps_flags; unfold call_native; solve_preserves.
  - apply preserves_keeps_flags. unfold call_native. solve_preserves.
Qed.

Lemma simple_eval_result_inputs env fname f s1 s2 :
  same_inputs (st_args s1) (st_args s2) ->
  fst (_simple_eval env fname f s1) = fst (_simple_eval env fname f s2).
Proof.
  intros [Hn Hv].
  assert (He : filterx_function_args_empty (st_args s1) = filterx_function_args_empty (st_args s2)).
  { unfold filterx_function_args_empty.
    rewrite Hn, <- (length_map arg_value (positional_args (st_args s1))), Hv, length_map.
    reflexivity. }
  destruct (filterx_function_args_empty (st_args s2)) eqn:E2.
  - rewrite (simple_eval_empty_run _ _ _ _ E2), (simple_eval_empty_run _ _ _ _ He).
    reflexivity.
  - pose proof (simple_eval_nonempty_run env fname f s1 He) as H1.
    pose proof (simple_eval_nonempty_run env fname f s2 E2) as H2.
    rewrite Hv, Hn in H1.
    destruct (eval_prefix env (map arg_value (positional_args (st_args s2)))) as [ev [objs|]].
    + destruct (check_named (named_args (st_args s2))); [| |contradiction];
        destruct H1 as [-> _], H2 as [-> _]; reflexivity.
    + destruct H1 as [-> _], H2 as [-> _]; reflexivity.
Qed.

(** X12.  A simple function does not accept named arguments.  For a name
    of the built-in simple table and a raw list (all arguments created
    unretrieved) holding at least one named argument, the lookup succeeds
    and returns the simple function, but every evaluation of it whose
    positional arguments all evaluate ends in NULL: the wrapper evaluates
    the positional arguments, runs check, and pushes the argument error
    "unexpected argument" naming one of the named arguments; the native
    function is never called. *)
Theorem simple_function_rejects_named
  (bs : string -> option FilterXSimpleFunctionProto) (bc : string -> option FilterXFunctionCtor)
  (cfg : GlobalConfig) (name : string) (f : FilterXSimpleFunctionProto)
  (raw : list FilterXFunctionArg) (c : FilterXFunctionArgs) (env : Env) :
  bs name = Some f ->
  bo_result (filterx_function_args_new raw) = Some c ->
  Forall (fun a => arg_retrieved a = false) raw ->
  existsb is_named raw = true ->
  Forall (fun a => expr_value env (arg_value a) <> None) (filter is_positional raw) ->
  filterx_function_lookup bs bc cfg name raw = (Some (SimpleFunction (display_name name) c f), None) /\
  exists x, In (Some x) (map arg_name raw) /\
    fst (_simple_eval env (display_name name) f (mkSt c [])) = Ok None /\
    st_trace (snd (_simple_eval env (display_name name) f (mkSt c []))) =
      (map EEval (map arg_value (filter is_positional raw)) ++
       [ECheck; EArgError (display_name name) (err_message (unexpected_argument_error x))])%list.
Proof.
  intros Hf Hc Hfresh Hn Hev.
  destruct (args_new_success raw c Hc) as (_ & He & Hpos & _).
  split.
  - unfold filterx_function_lookup, _lookup_simple_function. rewrite Hc, He, Hf. reflexivity.
  - destruct (args_new_named_first raw c Hc Hn) as (x & b & rest & Ht & Hb & Hbn).
    exists x. split; [rewrite <- Hbn; apply in_map, Hb|].
    assert (Hne : filterx_function_args_empty c = false).
    { unfold filterx_function_args_empty. rewrite Ht. apply andb_false_r. }
    assert (Hck : check_named (named_args c) = CheckFailed (unexpected_argument_error x)).
    { rewrite Ht. simpl. rewrite Forall_forall in Hfresh. rewrite (Hfresh b Hb). reflexivity. }
    pose proof (simple_eval_nonempty_run env (display_name name) f (mkSt c []) Hne) as Hrun.
    cbn [st_args st_trace] in Hrun. rewrite Hpos in Hrun.
    destruct (eval_prefix_forall_ok env _ Hev) as [objs Hok]. rewrite Hok, Hck in Hrun.
    destruct Hrun as [H1 H2]. split; [exact H1|]. rewrite H2. reflexivity.
Qed.

(** X12: witness of [simple_function_rejects_named]. *)
Lemma simple_function_rejects_named_witness :
  fst (_simple_eval (fun _ => None) (display_name "f") native_null
         (mkSt (mkArgs [pa (ENonLiteral 0)] [("x", na "x" (ENonLiteral 2))]) [])) = Ok None.
Proof.
  destruct (simple_function_rejects_named builtins_f no_ctors empty_cfg "f" native_null dup_raw
              (mkArgs [pa (ENonLiteral 0)] [("x", na "x" (ENonLiteral 2))])
              (fun _ => Some ONull) eq_refl eq_refl ltac:(repeat constructor) eq_refl
              ltac:(repeat constructor; discriminate))
    as [_ (x & _ & H & _)].
  exact H.
Defined.

(** X13.  A call without arguments.  For a name of the built-in simple
    table, the lookup with an empty raw list returns the simple function
    with an empty container; evaluating a simple function whose container
    is empty calls the native function with NULL (not with an empty array)
    and returns its result, evaluates nothing, runs no check and leaves
    the container as it is. *)
Theorem simple_function_no_arguments
  (bs : string -> option FilterXSimpleFunctionProto) (bc : string -> option FilterXFunctionCtor)
  (cfg : GlobalConfig) (name : string) (f : FilterXSimpleFunctionProto) (env : Env) (s : St) :
  (bs name = Some f ->
   filterx_function_lookup bs bc cfg name [] =
   (Some (SimpleFunction (display_name name) (mkArgs [] []) f), None)) /\
  (filterx_function_args_empty (st_args s) = true ->
   _simple_eval env (display_name name) f s =
   (Ok (f None), mkSt (st_args s) (st_trace s ++ [ENative None])%list)).
Proof.
  split.
  - intros Hf. unfold filterx_function_lookup, _lookup_simple_function.
    rewrite args_new_nil. simpl. rewrite Hf. reflexivity.
  - apply simple_eval_empty_run.
Qed.

(** X13: witness of [simple_function_no_arguments]. *)
Lemma simple_function_no_arguments_witness :
  filterx_function_lookup builtins_f no_ctors empty_cfg "f" [] =
  (Some (SimpleFunction (display_name "f") (mkArgs [] []) native_null), None) /\
  _simple_eval (fun _ => None) (display_name "f") native_null (mkSt (mkArgs [] []) []) =
  (Ok (Some ONull), mkSt (mkArgs [] []) [ENative None]).
Proof.
  destruct (simple_function_no_arguments builtins_f no_ctors empty_cfg "f" native_null
              (fun _ => None) (mkSt (mkArgs [] []) [])) as [H1 H2].
  split; [apply H1; reflexivity|]. apply H2. reflexivity.
Defined.

(** X14.  Evaluating a simple function never changes what a later
    evaluation yields: the wrapper leaves the named table and the
    positional expressions as they were (it only sets the [retrieved] flags
    of positional arguments), so the result of an evaluation, on any
    message, is the same whether or not the function was evaluated before. *)
Theorem simple_eval_repeatable (env1 env2 : Env) (fname : string) (f : FilterXSimpleFunctionProto) (s : St) :
  flags_only (st_args s) (st_args (snd (_simple_eval env1 fname f s))) /\
  fst (_simple_eval env2 fname f (snd (_simple_eval env1 fname f s))) = fst (_simple_eval env2 fname f s).
Proof.
  split; [apply simple_eval_keeps_flags|].
  apply simple_eval_result_inputs, simple_eval_keeps.
Qed.
